(** * promise_factory.h: adapting callables into promises

    A verification development for
    [src/core/lib/promise/detail/promise_factory.h] (namespace
    [grpc_core::promise_detail]).

    The header is template code: which [PromiseFactoryImpl] overload runs is
    decided from the type of the callable.  The embedding therefore has two
    layers.

    - A universe [ty] of C++ types (codes) with a denotation [den]; the
      traits of the header ([ResultOf], [IsVoidCallable]) are functions on
      codes, substitution into the declaration of a candidate yields
      [Viable], [Disabled] or an error, and overload resolution is a
      function on codes returning the selected overload or the
      compile-time error.
    - Values: a callable denotes a function into the state monad [M] over a
      world [W], so that the moment at which a callable is invoked (at
      adaptation time or at poll time) is observable.

    cv- and reference-qualifiers are erased from the codes ([RemoveCVRef]);
    the value category of the callable expression ([std::move(f_)] in
    [Once], the const lvalue [f_] in [Repeated]) is kept as an explicit
    argument, and decides whether the factory's member is left moved-from.
    What a callable reads and writes when it is invoked is the world;
    a callable object has no further state of its own. *)

From Stdlib Require Import ZArith List Eqdep_dec Lia.
Import ListNotations.

(** ** poll.h: the status type *)

(** Modelled from the spec: [Poll<T>] of [src/core/lib/promise/poll.h], which
    is not under src/.  "A value that is either pending or done(value: T)". *)
Inductive Poll (T : Type) : Type :=
| Pending : Poll T
| Ready (value : T) : Poll T.
Arguments Pending {T}.
Arguments Ready {T} value.

(** ** The state monad of effects on the world *)

Module State.
Definition M (W X : Type) : Type := W -> X * W.

Definition ret {W X} (x : X) : M W X := fun w => (x, w).

Definition bind {W X Y} (m : M W X) (k : X -> M W Y) : M W Y :=
  fun w => let (x, w') := m w in k x w'.

(** [n] successive runs of the same computation, results in order. *)
Fixpoint replicate {W X} (n : nat) (m : M W X) : M W (list X) :=
  match n with
  | O => ret nil
  | S n' => bind m (fun x => bind (replicate n' m) (fun xs => ret (x :: xs)))
  end.
End State.
Import State.

Notation "x <- m ;; k" := (bind m (fun x => k))
(at level 61, m at next level, right associativity).

(** ** Compile-time outcomes *)

(** The six function templates named [PromiseFactoryImpl], in source order. *)
Inductive overload : Type :=
| Capture        (* (F&& f, A&& arg), !IsVoidCallable<ResultOf<F(A)>> *)
| WrapDropArg    (* (F f, A&&),       !IsVoidCallable<ResultOf<F()>>  *)
| Wrap           (* (F f),            !IsVoidCallable<ResultOf<F()>>  *)
| CallWithArg    (* (F&& f, A&& arg),  IsVoidCallable<ResultOf<F(A)>> *)
| CallDropArg    (* (F&& f, A&&),      IsVoidCallable<ResultOf<F()>>  *)
| Call.          (* (F&& f),           IsVoidCallable<ResultOf<F()>>  *)

Inductive compile_error : Type :=
| IncompleteResultOf (o : overload)      (* while substituting into [o] *)
| NoMatchingOverload
| AmbiguousOverload (candidates : list overload)
| IllFormedInstantiation (o : overload). (* while instantiating [o] *)

(** A translation either fails with a diagnostic or yields an [X]. *)
Definition compile (X : Type) : Type := (compile_error + X)%type.

(** ** The universe of types *)

Inductive ty : Type :=
| TInt                               (* int: a raw value, not invocable *)
| TPoll (T : ty)                     (* Poll<T> *)
| TFn0 (R : ty)                      (* a class with  R operator()()  only *)
| TFn1 (A R : ty)                    (* a class with  R operator()(A) only *)
| TFn01 (R0 A R1 : ty)               (* a class with both call operators *)
| TCurried (F Arg : ty)              (* Curried<F, Arg> *)
| TPromiseLike (F : ty).             (* PromiseLike<F> *)

Definition ty_eq_dec (a b : ty) : {a = b} + {a <> b}.
Proof. decide equality. Defined.

(** The number of type constructors in a type. *)
Fixpoint size (t : ty) : nat :=
  match t with
  | TInt => 1
  | TPoll T => S (size T)
  | TFn0 R => S (size R)
  | TFn1 A R => S (size A + size R)
  | TFn01 R0 A R1 => S (size R0 + size A + size R1)
  | TCurried F Arg => S (size F + size Arg)
  | TPromiseLike F => S (size F)
  end.

Module Curried.
(** [class Curried]: the two private members. *)
Record t (F Arg : Type) : Type := Build { f_ : F; arg_ : Arg }.
Arguments Build {F Arg} f_ arg_.
Arguments f_ {F Arg} t.
Arguments arg_ {F Arg} t.
End Curried.

Module PromiseLike.
(** Modelled from the spec: [PromiseLike<F>] of
    [src/core/lib/promise/detail/promise_like.h], which is not under src/.
    It holds the callable; invoking it invokes the callable and yields a
    status ("wrap the callable so invocation yields done(value)"; a status
    is passed on as it is, "identity - no re-wrapping"). *)
Record t (F : Type) : Type := Build { f_ : F }.
Arguments Build {F} f_.
Arguments f_ {F} t.
End PromiseLike.

Section Model.

(** The state the program's callables read and write. *)
Variable W : Type.

Local Abbreviation M := (State.M W).

Fixpoint den (t : ty) : Type :=
  match t with
  | TInt => Z
  | TPoll T => Poll (den T)
  | TFn0 R => M (den R)
  | TFn1 A R => den A -> M (den R)
  | TFn01 R0 A R1 => (M (den R0) * (den A -> M (den R1)))%type
  | TCurried F Arg => Curried.t (den F) (den Arg)
  | TPromiseLike F => PromiseLike.t (den F)
  end.

(** A value together with its type. *)
Definition dyn : Type := {t : ty & den t}.
Definition Dyn (t : ty) (v : den t) : dyn := existT den t v.

(** *** Implicit conversions

    An argument of type [S] initialises a parameter of type [T] when [S]
    and [T] are the same type, or through one converting constructor.

    Modelled from the spec: the converting constructors of [Poll<T>]
    (poll.h) and of [PromiseLike<F>] (promise_like.h), which are not under
    src/.  A value is implicitly a finished status, done(value), and a
    callable is implicitly the promise that holds it; the statements
    [return f(...);] of the header, whose return type is
    [PromiseLike<...>], rely on the latter.  An implicit conversion holds
    at most one converting constructor. *)
Definition convert (S T : ty) : option (den S -> den T) :=
  match ty_eq_dec S T with
  | left e => Some (fun x => eq_rect S den x T e)
  | right _ =>
      match T as T0 return option (den S -> den T0) with
      | TPoll T' =>
          match ty_eq_dec S T' with
          | left e => Some (fun x => Ready (eq_rect S den x T' e))
          | right _ => None
          end
      | TPromiseLike T' =>
          match ty_eq_dec S T' with
          | left e =>
              Some (fun x => PromiseLike.Build (eq_rect S den x T' e))
          | right _ => None
          end
      | _ => None
      end
  end.

(** *** Invocation

    [invoke1 F A]: is [declval<F>()(declval<A>())] well-formed, and if so
    its type and its meaning. *)
Definition invoke1 (F A : ty) : option {R : ty & den F -> den A -> M (den R)} :=
  match F as F0 return option {R : ty & den F0 -> den A -> M (den R)} with
  | TFn1 A' R =>
      match convert A A' with
      | Some cv => Some (existT _ R (fun f a => f (cv a)))
      | None => None
      end
  | TFn01 R0 A' R1 =>
      match convert A A' with
      | Some cv => Some (existT _ R1 (fun f a => snd f (cv a)))
      | None => None
      end
  | _ => None
  end.

(** Modelled from the spec: the result type of [PromiseLike<F>::operator()]
    ([WrapInPoll] of poll.h, not under src/): a status stays what it is, a
    raw value of type [R] becomes a [Poll<R>]. *)
Definition PollWrap (R : ty) : ty :=
  match R with
  | TPoll T => TPoll T
  | _ => TPoll R
  end.

(** Modelled from the spec: [WrapInPoll] (poll.h, not under src/). *)
Definition WrapInPoll (R : ty) : den R -> den (PollWrap R) :=
  match R as R0 return den R0 -> den (PollWrap R0) with
  | TPoll T => fun p => p
  | _ => fun v => Ready v
  end.

(** [invoke0 F]: is [declval<F>()()] well-formed, and if so its type and
    its meaning.  [Curried::operator()] is [return f_(arg_);].  The case of
    [PromiseLike<F>] follows the spec (see [PromiseLike.t]): invoke the
    callable it holds and pass the result through [WrapInPoll]. *)
Fixpoint invoke0 (F : ty) : option {R : ty & den F -> M (den R)} :=
  match F as F0 return option {R : ty & den F0 -> M (den R)} with
  | TFn0 R => Some (existT _ R (fun f => f))
  | TFn01 R0 A R1 => Some (existT _ R0 (fun f => fst f))
  | TCurried F' Arg =>
      match invoke1 F' Arg with
      | Some (existT _ R call) =>
          Some (existT _ R
                  (fun c : den (TCurried F' Arg) =>
                     call (Curried.f_ c) (Curried.arg_ c)))
      | None => None
      end
  | TPromiseLike F' =>
      match invoke0 F' with
      | Some (existT _ R call) =>
          Some (existT _ (PollWrap R)
                  (fun p : den (TPromiseLike F') =>
                     v <- call (PromiseLike.f_ p) ;; ret (WrapInPoll R v)))
      | None => None
      end
  | _ => None
  end.

(** *** The traits of the header *)

(** [IsVoidCallable<T>()]: given [T x], is calling [x()] legal?  The partial
    specialization of [IsVoidCallableT] is chosen when [declval<F>()()] is
    well-formed, the primary template (value [false]) otherwise. *)
Definition IsVoidCallable (T : ty) : bool :=
  match invoke0 T with
  | Some _ => true
  | None => false
  end.

(** [ResultOfTInner<F(Args...)>::T]: the partial specialization is chosen
    when the call is well-formed; the primary template is declared and
    never defined, so otherwise the class is incomplete and has no [T]. *)
Definition ResultOfTInner0 (F : ty) : option ty :=
  option_map (@projT1 _ _) (invoke0 F).

Definition ResultOfTInner1 (F A : ty) : option ty :=
  option_map (@projT1 _ _) (invoke1 F A).

(** [ResultOf<F()>] and [ResultOf<F(A)>], that is [ResultOfT<...>::T].  The
    class [ResultOfT<F(Args...)>] declares its member
    [using T = typename ResultOfTInner<FP(Args...)>::T;] so when the call
    is not well-formed the error arises while the class [ResultOfT] is
    instantiated: [None] stands for that error. *)
Definition ResultOf0 (F : ty) : option ty := ResultOfTInner0 F.

Definition ResultOf1 (F A : ty) : option ty := ResultOfTInner1 F A.

(** *** Overload resolution for a call of [PromiseFactoryImpl] *)

(** What substituting the deduced template arguments into the declaration
    of a candidate gives. *)
Inductive substitution : Type :=
| Viable                  (* the candidate takes part in the resolution *)
| Disabled                (* deduction fails: the candidate is discarded *)
| ErrorInResultOf.        (* the translation stops with an error *)

(** [A] is the type of the second argument of the call, [None] for the
    one-argument call [PromiseFactoryImpl(f)].  A template with the wrong
    number of parameters fails deduction before anything is substituted.
    Otherwise the return type [enable_if_t<condition, ...>] is substituted:
    a false condition discards the candidate, while a [ResultOf] of a call
    that is not well-formed fails inside the instantiation of [ResultOfT],
    which is outside the immediate context of the substitution and is an
    error of the translation. *)
Definition substitute (o : overload) (F : ty) (A : option ty) : substitution :=
  match o, A with
  | Capture, Some A' =>
      match ResultOf1 F A' with
      | Some R => if negb (IsVoidCallable R) then Viable else Disabled
      | None => ErrorInResultOf
      end
  | WrapDropArg, Some _ | Wrap, None =>
      match ResultOf0 F with
      | Some R => if negb (IsVoidCallable R) then Viable else Disabled
      | None => ErrorInResultOf
      end
  | CallWithArg, Some A' =>
      match ResultOf1 F A' with
      | Some R => if IsVoidCallable R then Viable else Disabled
      | None => ErrorInResultOf
      end
  | CallDropArg, Some _ | Call, None =>
      match ResultOf0 F with
      | Some R => if IsVoidCallable R then Viable else Disabled
      | None => ErrorInResultOf
      end
  | _, _ => Disabled
  end.

(** The [enable_if_t] condition of the candidate holds. *)
Definition enabled (o : overload) (F : ty) (A : option ty) : bool :=
  match substitute o F A with
  | Viable => true
  | _ => false
  end.

Definition fails (o : overload) (F : ty) (A : option ty) : bool :=
  match substitute o F A with
  | ErrorInResultOf => true
  | _ => false
  end.

Definition overloads : list overload :=
  [Capture; WrapDropArg; Wrap; CallWithArg; CallDropArg; Call].

Definition viable (F : ty) (A : option ty) : list overload :=
  filter (fun o => enabled o F A) overloads.

(** The candidates of one arity take their arguments alike: [(F&&, A&&)] for
    [Capture], [CallWithArg] and [CallDropArg], and [(F, A&&)] for
    [WrapDropArg], where passing by value and binding a reference are both
    identity conversions and partial ordering of the templates prefers
    neither.  No candidate is therefore better than another: the call is
    well-formed exactly when no substitution stops the translation and one
    candidate is viable. *)
Definition overload_resolution (F : ty) (A : option ty) : compile overload :=
  match find (fun o => fails o F A) overloads with
  | Some o => inl (IncompleteResultOf o)
  | None =>
      match viable F A with
      | [] => inl NoMatchingOverload
      | [o] => inr o
      | os => inl (AmbiguousOverload os)
      end
  end.

(** *** Value categories and moved-from objects *)

(** The callable expression at the two call sites: [std::move(f_)] in
    [Once], and [f_] inside the const member [Repeated]. *)
Inductive value_category : Type :=
| Xvalue
| ConstLvalue.

(** The state a move constructor leaves its source in: valid but
    unspecified, hence a parameter of the development. *)
Variable moved_from : forall T : ty, den T -> den T.

(** Initialising a new object of type [T] from the expression [src]:
    the new object, and [src] afterwards.  An xvalue is moved from, a const
    lvalue is copied. *)
Definition construct (c : value_category) (T : ty) (src : den T)
  : den T * den T :=
  match c with
  | Xvalue => (src, moved_from T src)
  | ConstLvalue => (src, src)
  end.

(** *** The bodies of the overloads

    Each body yields the promise together with the state in which it leaves
    the callable object that was passed to it. *)

(** [return Curried<A, F>(std::forward<F>(f), std::forward<A>(arg));]
    converted to [PromiseLike<Curried<A, F>>].

    The class template is declared [template <typename F, typename Arg>
    class Curried], so in [Curried<A, F>] the member [f_] has type [A], the
    member [arg_] has type [F], the constructor is [Curried(A&&, F&&)], and
    [Result] is the type of [declval<A>()(declval<F>())]. *)
Definition Capture_body (F A : ty)
  : option {P : ty & value_category -> den F -> den A -> M (den P * den F)} :=
  match invoke1 A F, convert F A, convert A F with
  | Some _, Some to_f_, Some to_arg_ =>
      Some (existT _ (TPromiseLike (TCurried A F))
              (fun c f arg =>
                 let r := construct c F f in
                 ret (PromiseLike.Build
                        (Curried.Build (to_f_ (fst r)) (to_arg_ arg)),
                      snd r)))
  | _, _, _ => None
  end.

(** [PromiseFactoryImpl(F f, A&&) { return PromiseLike<F>(std::move(f)); }]
    and the same without the second parameter: the parameter [f] is a new
    object initialised from the callable expression. *)
Definition Wrap_body (F : ty)
  : option {P : ty & value_category -> den F -> M (den P * den F)} :=
  match invoke0 F with
  | Some _ =>
      Some (existT _ (TPromiseLike F)
              (fun c f =>
                 let r := construct c F f in
                 ret (PromiseLike.Build (fst r), snd r)))
  | None => None
  end.

(** [return f(std::forward<A>(arg));] converted to
    [PromiseLike<decltype(f(arg))>]: [f] is invoked through the reference. *)
Definition CallWithArg_body (F A : ty)
  : option {P : ty & value_category -> den F -> den A -> M (den P * den F)} :=
  match invoke1 F A with
  | Some (existT _ R call) =>
      Some (existT _ (TPromiseLike R)
              (fun _ f arg => p <- call f arg ;; ret (PromiseLike.Build p, f)))
  | None => None
  end.

(** [return f();] converted to [PromiseLike<decltype(f())>]. *)
Definition Call_body (F : ty)
  : option {P : ty & value_category -> den F -> M (den P * den F)} :=
  match invoke0 F with
  | Some (existT _ R call) =>
      Some (existT _ (TPromiseLike R)
              (fun _ f => p <- call f ;; ret (PromiseLike.Build p, f)))
  | None => None
  end.

(** An unnamed parameter [A&&]: the argument is bound and never read. *)
Definition drop_arg (F A : ty)
  (b : option {P : ty & value_category -> den F -> M (den P * den F)})
  : option {P : ty & value_category -> den F -> den A -> M (den P * den F)} :=
  match b with
  | Some (existT _ P body) => Some (existT _ P (fun c f _ => body c f))
  | None => None
  end.

(** The instantiation of the selected two-argument template. *)
Definition instantiate (o : overload) (F A : ty)
  : option {P : ty & value_category -> den F -> den A -> M (den P * den F)} :=
  match o with
  | Capture => Capture_body F A
  | WrapDropArg => drop_arg F A (Wrap_body F)
  | CallWithArg => CallWithArg_body F A
  | CallDropArg => drop_arg F A (Call_body F)
  | Wrap | Call => None
  end.

(** The instantiation of the selected one-argument template. *)
Definition instantiate_void (o : overload) (F : ty)
  : option {P : ty & value_category -> den F -> M (den P * den F)} :=
  match o with
  | Wrap => Wrap_body F
  | Call => Call_body F
  | _ => None
  end.

(** The body of the two-argument template [o] instantiated at [F] and [A]
    and run on a callable expression of category [c]. *)
Definition run_body (o : overload) (c : value_category) (F A : ty)
  (f : den F) (arg : den A) : compile {P : ty & M (den P * den F)} :=
  match instantiate o F A with
  | Some (existT _ P body) => inr (existT _ P (body c f arg))
  | None => inl (IllFormedInstantiation o)
  end.

Definition run_body_void (o : overload) (c : value_category) (F : ty)
  (f : den F) : compile {P : ty & M (den P * den F)} :=
  match instantiate_void o F with
  | Some (existT _ P body) => inr (existT _ P (body c f))
  | None => inl (IllFormedInstantiation o)
  end.

(** The candidate [o] taken on its own: its specialization at the deduced
    arguments exists when the substitution into its declaration succeeds,
    and is then run. *)
Definition run_overload (o : overload) (c : value_category) (F A : ty)
  (f : den F) (arg : den A) : compile {P : ty & M (den P * den F)} :=
  match substitute o F (Some A) with
  | Viable => run_body o c F A f arg
  | Disabled => inl NoMatchingOverload
  | ErrorInResultOf => inl (IncompleteResultOf o)
  end.

Definition run_overload_void (o : overload) (c : value_category) (F : ty)
  (f : den F) : compile {P : ty & M (den P * den F)} :=
  match substitute o F None with
  | Viable => run_body_void o c F f
  | Disabled => inl NoMatchingOverload
  | ErrorInResultOf => inl (IncompleteResultOf o)
  end.

(** The call [PromiseFactoryImpl(f, arg)], with [f] of category [c]. *)
Definition PromiseFactoryImpl (c : value_category) (F A : ty)
  (f : den F) (arg : den A) : compile {P : ty & M (den P * den F)} :=
  match overload_resolution F (Some A) with
  | inl e => inl e
  | inr o => run_overload o c F A f arg
  end.

(** The call [PromiseFactoryImpl(f)], with [f] of category [c]. *)
Definition PromiseFactoryImpl_void (c : value_category) (F : ty)
  (f : den F) : compile {P : ty & M (den P * den F)} :=
  match overload_resolution F None with
  | inl e => inl e
  | inr o => run_overload_void o c F f
  end.

(** *** [class PromiseFactory] *)

Record PromiseFactory (A F : ty) : Type := MakeFactory { f_ : den F }.

(** Store the callable state the dispatch left behind back into the member. *)
Definition with_member (A F : ty)
  (r : compile {P : ty & M (den P * den F)})
  : compile {P : ty & M (den P * PromiseFactory A F)} :=
  match r with
  | inl e => inl e
  | inr (existT _ P m) =>
      inr (existT _ P (r <- m ;; ret (fst r, MakeFactory A F (snd r))))
  end.

(** [Promise Once(Arg&& a)]:
    [return PromiseFactoryImpl(std::move(f_), std::forward<Arg>(a));] *)
Definition Once (A F : ty) (this : PromiseFactory A F) (a : den A)
  : compile {P : ty & M (den P * PromiseFactory A F)} :=
  with_member A F (PromiseFactoryImpl Xvalue F A (f_ A F this) a).

(** [Promise Repeated(Arg&& a) const]:
    [return PromiseFactoryImpl(f_, std::forward<Arg>(a));] *)
Definition Repeated (A F : ty) (this : PromiseFactory A F) (a : den A)
  : compile {P : ty & M (den P * PromiseFactory A F)} :=
  with_member A F (PromiseFactoryImpl ConstLvalue F A (f_ A F this) a).

(** *** [class PromiseFactory<void, F>] *)

Record PromiseFactoryVoid (F : ty) : Type := MakeFactoryVoid { vf_ : den F }.

Definition with_member_void (F : ty)
  (r : compile {P : ty & M (den P * den F)})
  : compile {P : ty & M (den P * PromiseFactoryVoid F)} :=
  match r with
  | inl e => inl e
  | inr (existT _ P m) =>
      inr (existT _ P (r <- m ;; ret (fst r, MakeFactoryVoid F (snd r))))
  end.

(** [Promise Once() { return PromiseFactoryImpl(std::move(f_)); }] *)
Definition Once_void (F : ty) (this : PromiseFactoryVoid F)
  : compile {P : ty & M (den P * PromiseFactoryVoid F)} :=
  with_member_void F (PromiseFactoryImpl_void Xvalue F (vf_ F this)).

(** [Promise Repeated() const { return PromiseFactoryImpl(f_); }] *)
Definition Repeated_void (F : ty) (this : PromiseFactoryVoid F)
  : compile {P : ty & M (den P * PromiseFactoryVoid F)} :=
  with_member_void F (PromiseFactoryImpl_void ConstLvalue F (vf_ F this)).

(** *** Polling *)

(** Invoke a promise of type [P] once in the world [w]: [None] when [P] is
    not invocable without arguments. *)
Definition poll (P : ty) (p : den P) (w : W) : option (dyn * W) :=
  match invoke0 P with
  | Some (existT _ R call) => let (v, w') := call p w in Some (Dyn R v, w')
  | None => None
  end.

End Model.

Arguments Dyn {W} t v.
Arguments f_ {W A F} p.
Arguments vf_ {W F} p.
Arguments construct {W} moved_from c T src.
Arguments run_overload {W} moved_from o c F A f arg.
Arguments run_overload_void {W} moved_from o c F f.
Arguments PromiseFactoryImpl {W} moved_from c F A f arg.
Arguments PromiseFactoryImpl_void {W} moved_from c F f.
Arguments Once {W} moved_from {A F} this a.
Arguments Repeated {W} moved_from {A F} this a.
Arguments Once_void {W} moved_from {F} this.
Arguments Repeated_void {W} moved_from {F} this.
Arguments poll {W} P p w.

(** ** Observations used in the statements *)

Section Observations.

Variable W : Type.

(** What a call of [Once]/[Repeated]/[PromiseFactoryImpl] started in the
    world [w] hands to its caller: the promise with its type, and the world
    after the call. *)
Definition produced {X : Type}
  (r : compile {P : ty & State.M W (den W P * X)}) (w : W)
  : compile (dyn W * W) :=
  match r with
  | inl e => inl e
  | inr (existT _ P m) => let (px, w') := m w in inr (Dyn P (fst px), w')
  end.

(** The state in which the call leaves the object it was made on. *)
Definition left_behind {X : Type}
  (r : compile {P : ty & State.M W (den W P * X)}) (w : W) : compile X :=
  match r with
  | inl e => inl e
  | inr (existT _ P m) => inr (snd (fst (m w)))
  end.

(** The static type of the promise, [decltype(PromiseFactoryImpl(...))]. *)
Definition Promise {X : Type}
  (r : compile {P : ty & State.M W (den W P * X)}) : compile ty :=
  match r with
  | inl e => inl e
  | inr (existT _ P _) => inr P
  end.

(** Invoke a promise that is given with its type. *)
Definition poll_dyn (d : dyn W) (w : W) : option (dyn W * W) :=
  poll (projT1 d) (projT2 d) w.

(** Two successive invocations of the same promise object. *)
Definition poll_twice (P : ty) (p : den W P) (w : W)
  : option (dyn W * dyn W * W) :=
  match poll P p w with
  | Some (d1, w1) =>
      match poll P p w1 with
      | Some (d2, w2) => Some (d1, d2, w2)
      | None => None
      end
  | None => None
  end.

(** The overloads whose second parameter is unnamed, and the one-argument
    overloads: the callable is invoked without arguments. *)
Definition drops_argument (o : overload) : bool :=
  match o with
  | WrapDropArg | Wrap | CallDropArg | Call => true
  | Capture | CallWithArg => false
  end.

(** The overloads that initialise a new object from the callable expression
    (the others only invoke the callable through the reference). *)
Definition stores_callable (o : overload) : bool :=
  match o with
  | Capture | WrapDropArg | Wrap => true
  | CallWithArg | CallDropArg | Call => false
  end.

(** A pure value: every callable in it returns the same pure value in every
    world and leaves the world as it was. *)
Fixpoint Pure (t : ty) : den W t -> Prop :=
  match t as t0 return den W t0 -> Prop with
  | TInt => fun _ => True
  | TPoll T => fun p => match p with Pending => True | Ready v => Pure T v end
  | TFn0 R => fun f => exists v, (forall w, f w = (v, w)) /\ Pure R v
  | TFn1 A R => fun f =>
      forall a, Pure A a -> exists v, (forall w, f a w = (v, w)) /\ Pure R v
  | TFn01 R0 A R1 => fun f =>
      (exists v, (forall w, fst f w = (v, w)) /\ Pure R0 v) /\
      (forall a, Pure A a ->
                 exists v, (forall w, snd f a w = (v, w)) /\ Pure R1 v)
  | TCurried F Arg => fun c => Pure F (Curried.f_ c) /\ Pure Arg (Curried.arg_ c)
  | TPromiseLike F => fun p => Pure F (PromiseLike.f_ p)
  end.

(** What a promise-making computation over a pure callable [f] does: it
    yields one promise [p] and [f] itself in every world, and [p] yields
    one status in every world. *)
Definition settled (P X : ty) (m : State.M W (den W P * den W X))
  (f : den W X) : Prop :=
  exists p T s,
    (forall w, m w = ((p, f), w)) /\
    (forall w, poll P p w = Some (Dyn (TPoll T) s, w)).

(** The extreme moved-from state: whatever the object held is gone. *)
Fixpoint hollow (t : ty) : den W t :=
  match t as t0 return den W t0 with
  | TInt => 0%Z
  | TPoll T => Pending
  | TFn0 R => fun w => (hollow R, w)
  | TFn1 A R => fun _ w => (hollow R, w)
  | TFn01 R0 A R1 => (fun w => (hollow R0, w), fun _ w => (hollow R1, w))
  | TCurried F Arg => Curried.Build (hollow F) (hollow Arg)
  | TPromiseLike F => PromiseLike.Build (hollow F)
  end.

End Observations.

Arguments produced {W X} r w.
Arguments left_behind {W X} r w.
Arguments Promise {W X} r.
Arguments poll_dyn {W} d w.
Arguments poll_twice {W} P p w.
Arguments Pure {W} t v.
Arguments settled {W} P X m f.

(** ** Repeated use *)

Section Iteration.

Variable W : Type.
Variable moved_from : forall T : ty, den W T -> den W T.

(** [n] successive invocations of one promise object, each in the world the
    previous one left: the statuses in order and the final world. *)
Fixpoint poll_times (n : nat) (P : ty) (p : den W P) (w : W)
  : option (list (dyn W) * W) :=
  match n with
  | O => Some ([], w)
  | S n' =>
      match poll P p w with
      | Some (d, w1) =>
          match poll_times n' P p w1 with
          | Some (ds, w2) => Some (d :: ds, w2)
          | None => None
          end
      | None => None
      end
  end.

(** [n] successive calls of [Repeated()] on one factory object, each on the
    factory and in the world the previous call left: the promises in order,
    the factory and the world afterwards. *)
Fixpoint Repeated_void_times (F : ty) (n : nat) (this : PromiseFactoryVoid W F)
  (w : W) : compile (list (dyn W) * PromiseFactoryVoid W F * W) :=
  match n with
  | O => inr ([], this, w)
  | S n' =>
      match Repeated_void moved_from this with
      | inl e => inl e
      | inr (existT _ P m) =>
          let r := m w in
          match Repeated_void_times F n' (snd (fst r)) (snd r) with
          | inl e => inl e
          | inr (ps, fac, w') => inr (Dyn P (fst (fst r)) :: ps, fac, w')
          end
      end
  end.

(** [Once()] followed by [n] invocations of the promise it hands back. *)
Definition Once_void_then_poll (F : ty) (n : nat) (this : PromiseFactoryVoid W F)
  (w : W) : option (list (dyn W) * W) :=
  match produced (Once_void moved_from this) w with
  | inl _ => None
  | inr (d, w1) => poll_times n (projT1 d) (projT2 d) w1
  end.

End Iteration.

Arguments poll_times {W} n P p w.
Arguments Repeated_void_times {W} moved_from {F} n this w.
Arguments Once_void_then_poll {W} moved_from {F} n this w.

(** ** Example callables

    The world is a counter of the invocations performed so far. *)

Module Examples.
Open Scope Z_scope.

(** [[](int x) { return x + 1; }] *)
Definition inc : den Z (TFn1 TInt TInt) := fun x w => (x + 1, w + 1).

(** [[](int x) -> Poll<int> { return x > 0 ? done(x) : pending; }] *)
Definition poll_fn : den Z (TFn1 TInt (TPoll TInt)) :=
  fun x w => (if 0 <? x then Ready x else Pending, w + 1).

(** [[]() { return 42; }] *)
Definition answer : den Z (TFn0 TInt) := fun w => (42, w + 1).

(** [[]() -> Poll<int> { return 42; }], not counted: a pure callable. *)
Definition ready42 : den Z (TFn0 (TPoll TInt)) := fun w => (Ready 42, w).

(** A callable with both call operators, which ignores its input. *)
Definition both_ways : den Z (TFn01 TInt TInt TInt) :=
  (fun w => (42, w + 1), fun _ w => (42, w + 1)).

(** [[]() { return []() -> Poll<int> { return 42; }; }]: a callable that
    returns a promise. *)
Definition make_promise : den Z (TFn0 (TFn0 (TPoll TInt))) :=
  fun w => (fun w' => (Ready 42, w' + 1), w + 1).

(** [[](int x) { return [x]() -> Poll<int> { return x; }; }] *)
Definition make_promise_of : den Z (TFn1 TInt (TFn0 (TPoll TInt))) :=
  fun x w => (fun w' => (Ready x, w' + 1), w + 1).

(** [[](Poll<int> s) { return s is done(v) ? v : 0; }] *)
Definition value_or_zero : den Z (TFn1 (TPoll TInt) TInt) :=
  fun s w => (match s with Ready v => v | Pending => 0 end, w + 1).

(** [[](int x) { return 2 * x; }], not counted: a pure callable. *)
Definition twice : den Z (TFn1 TInt TInt) := fun x w => (2 * x, w).

(** Trivially copyable callables: a move is a copy. *)
Definition move_is_copy : forall T : ty, den Z T -> den Z T := fun _ x => x.

(** Move constructors that leave nothing behind. *)
Definition move_guts : forall T : ty, den Z T -> den Z T :=
  fun T _ => hollow Z T.
End Examples.

(** ** Properties *)

Section Properties.

Variable W : Type.
Variable moved_from : forall T : ty, den W T -> den W T.

(** *** Types, conversions and invocation *)

Lemma ty_eq_dec_refl (a : ty) : ty_eq_dec a a = left eq_refl.
Proof.
  destruct (ty_eq_dec a a) as [e | n].
  - f_equal. apply UIP_dec, ty_eq_dec.
  - contradiction.
Qed.

Lemma convert_refl (T : ty) : convert W T T = Some (fun x => x).
Proof. unfold convert. rewrite ty_eq_dec_refl. reflexivity. Qed.

(** A conversion is the identity or wraps its source once. *)
Lemma convert_size (S T : ty) (cv : den W S -> den W T) :
  convert W S T = Some cv -> size S <= size T.
Proof.
  unfold convert. destruct (ty_eq_dec S T) as [-> | _]; [lia |].
  destruct T; try discriminate;
    (destruct (ty_eq_dec S T) as [-> | _]; [simpl; lia | discriminate]).
Qed.

Lemma convert_none (S T : ty) : size T < size S -> convert W S T = None.
Proof.
  intros H. destruct (convert W S T) as [cv |] eqn:E; [| reflexivity].
  apply convert_size in E. lia.
Qed.

Lemma invoke1_Fn1 (A R : ty) :
  invoke1 W (TFn1 A R) A = Some (existT _ R (fun f a => f a)).
Proof. simpl. rewrite convert_refl. reflexivity. Qed.

Lemma invoke1_Fn01 (R0 A R1 : ty) :
  invoke1 W (TFn01 R0 A R1) A = Some (existT _ R1 (fun f a => snd f a)).
Proof. simpl. rewrite convert_refl. reflexivity. Qed.

(** A callable is a larger type than any argument it accepts. *)
Lemma invocable_size (F A : ty) : invoke1 W F A <> None -> size A < size F.
Proof.
  destruct F; simpl; try congruence; intros H.
  - destruct (convert W A F1) eqn:E; [| congruence].
    apply convert_size in E. lia.
  - destruct (convert W A F2) eqn:E; [| congruence].
    apply convert_size in E. lia.
Qed.

(** [Curried<A, F>] cannot be built from an [F] and an [A] when [F] is the
    callable and [A] its argument: the members are declared the other way
    round, and the callable does not convert to the type of its
    argument. *)
Lemma Capture_body_ill_formed (F A : ty) :
  invoke1 W F A <> None -> Capture_body W moved_from F A = None.
Proof.
  intros H. unfold Capture_body.
  rewrite (convert_none _ _ (invocable_size _ _ H)).
  destruct (invoke1 W A F); reflexivity.
Qed.

(** *** Overload resolution *)

Ltac unfold_resolution :=
  unfold overload_resolution, viable, overloads, enabled, fails, substitute,
    ResultOf1, ResultOf0, ResultOfTInner1, ResultOfTInner0.

(** The one-argument call: the callable is invocable without arguments, and
    what it returns decides between [Wrap] and [Call]. *)
Lemma resolve_void (F R : ty) (call : den W F -> State.M W (den W R)) :
  invoke0 W F = Some (existT _ R call) ->
  overload_resolution W F None = inr (if IsVoidCallable W R then Call else Wrap).
Proof.
  intros E. unfold_resolution. rewrite E. cbn.
  destruct (IsVoidCallable W R); reflexivity.
Qed.

(** The one-argument call on a callable that is not invocable without
    arguments stops at the first candidate. *)
Lemma resolve_void_error (F : ty) :
  invoke0 W F = None ->
  overload_resolution W F None = inl (IncompleteResultOf Wrap).
Proof. intros E. unfold_resolution. rewrite E. reflexivity. Qed.

(** The two-argument call is never well-formed.  When the callable is not
    invocable both with the argument and without arguments, one
    [ResultOf] stops the translation; when it is, one argument-taking and
    one argument-dropping candidate are viable. *)
Lemma resolve_with_argument (F A : ty) :
  exists e, overload_resolution W F (Some A) = inl e.
Proof.
  unfold_resolution.
  destruct (invoke1 W F A) as [[R1 call1] |]; cbn;
    [| eexists; reflexivity].
  destruct (invoke0 W F) as [[R0 call0] |]; cbn;
    [| destruct (IsVoidCallable W R1); eexists; reflexivity].
  destruct (IsVoidCallable W R1), (IsVoidCallable W R0); cbn;
    eexists; reflexivity.
Qed.

Lemma resolution_enabled (F : ty) (A : option ty) (o : overload) :
  overload_resolution W F A = inr o -> enabled W o F A = true.
Proof.
  unfold overload_resolution.
  destruct (find (fun o => fails W o F A) overloads); [discriminate |].
  destruct (viable W F A) as [| o' [| o'' os]] eqn:E; try discriminate.
  intros [= ->].
  assert (Hin : In o (viable W F A)) by (rewrite E; left; reflexivity).
  unfold viable in Hin. apply filter_In in Hin. tauto.
Qed.

(** *** The bodies of the overloads and the factory front end *)

Lemma produced_with_member (A F : ty) r (w : W) :
  produced (with_member W A F r) w = produced r w.
Proof.
  destruct r as [e | [P m]]; simpl; [reflexivity |].
  unfold bind, ret. destruct (m w) as [[p f'] w']. reflexivity.
Qed.

Lemma produced_with_member_void (F : ty) r (w : W) :
  produced (with_member_void W F r) w = produced r w.
Proof.
  destruct r as [e | [P m]]; simpl; [reflexivity |].
  unfold bind, ret. destruct (m w) as [[p f'] w']. reflexivity.
Qed.

Lemma left_behind_with_member_void (F : ty) r (w : W) :
  left_behind (with_member_void W F r) w =
  match left_behind r w with
  | inl e => inl e
  | inr f' => inr (MakeFactoryVoid W F f')
  end.
Proof.
  destruct r as [e | [P m]]; simpl; [reflexivity |].
  unfold bind, ret. destruct (m w) as [[p f'] w']. reflexivity.
Qed.

Lemma Promise_with_member (A F : ty) r :
  Promise (with_member W A F r) = Promise r.
Proof. destruct r as [e | [P m]]; reflexivity. Qed.

Lemma Promise_with_member_void (F : ty) r :
  Promise (with_member_void W F r) = Promise r.
Proof. destruct r as [e | [P m]]; reflexivity. Qed.

(** Case analysis on the body of an overload. *)
Ltac body_cases :=
  unfold run_body, run_body_void;
  cbn [instantiate instantiate_void];
  unfold Capture_body, drop_arg, Wrap_body, CallWithArg_body, Call_body;
  repeat match goal with
    | |- context [match invoke0 ?W ?F with _ => _ end] =>
        destruct (invoke0 W F) as [[? ?] |]
    | |- context [match invoke1 ?W ?F ?A with _ => _ end] =>
        destruct (invoke1 W F A) as [[? ?] |]
    | |- context [match convert ?W ?S ?T with _ => _ end] =>
        destruct (convert W S T)
    end.

(** The promise an overload builds does not depend on the value category of
    the callable expression: a copy and a moved-to object hold the same
    callable. *)
Lemma run_overload_category (o : overload) (c c' : value_category) (F A : ty)
  (f : den W F) (a : den W A) (w : W) :
  produced (run_overload moved_from o c F A f a) w =
  produced (run_overload moved_from o c' F A f a) w.
Proof.
  unfold run_overload.
  destruct (substitute W o F (Some A)); try reflexivity.
  destruct o; body_cases; destruct c, c'; reflexivity.
Qed.

Lemma run_overload_void_category (o : overload) (c c' : value_category)
  (F : ty) (f : den W F) (w : W) :
  produced (run_overload_void moved_from o c F f) w =
  produced (run_overload_void moved_from o c' F f) w.
Proof.
  unfold run_overload_void.
  destruct (substitute W o F None); try reflexivity.
  destruct o; body_cases; destruct c, c'; reflexivity.
Qed.

(** What an overload leaves in the callable object it was given. *)
Lemma run_overload_left_behind (o : overload) (c : value_category) (F A : ty)
  (f f' : den W F) (a : den W A) (w : W) :
  left_behind (run_overload moved_from o c F A f a) w = inr f' ->
  f' = if stores_callable o then snd (construct moved_from c F f) else f.
Proof.
  unfold run_overload, run_overload_void;
    match goal with
    | |- context [substitute ?W' ?o' ?F' ?A'] => destruct (substitute W' o' F' A')
    end; try discriminate.
  destruct o; body_cases; simpl; try discriminate;
    unfold bind, ret;
    try match goal with
      | |- context [let (_, _) := ?m in _] => destruct m
      end; simpl; congruence.
Qed.

Lemma run_overload_void_left_behind (o : overload) (c : value_category)
  (F : ty) (f f' : den W F) (w : W) :
  left_behind (run_overload_void moved_from o c F f) w = inr f' ->
  f' = if stores_callable o then snd (construct moved_from c F f) else f.
Proof.
  unfold run_overload, run_overload_void;
    match goal with
    | |- context [substitute ?W' ?o' ?F' ?A'] => destruct (substitute W' o' F' A')
    end; try discriminate.
  destruct o; body_cases; simpl; try discriminate;
    unfold bind, ret;
    try match goal with
      | |- context [let (_, _) := ?m in _] => destruct m
      end; simpl; congruence.
Qed.

(** The promise type is a matter of types alone. *)
Lemma Promise_run_overload (o : overload) (c c' : value_category) (F A : ty)
  (f f' : den W F) (a a' : den W A) :
  Promise (run_overload moved_from o c F A f a) =
  Promise (run_overload moved_from o c' F A f' a').
Proof.
  unfold run_overload, run_body.
  destruct (substitute W o F (Some A)); try reflexivity.
  destruct (instantiate W moved_from o F A) as [[P body] |]; reflexivity.
Qed.

Lemma Promise_run_overload_void (o : overload) (c c' : value_category)
  (F : ty) (f f' : den W F) :
  Promise (run_overload_void moved_from o c F f) =
  Promise (run_overload_void moved_from o c' F f').
Proof.
  unfold run_overload_void, run_body_void.
  destruct (substitute W o F None); try reflexivity.
  destruct (instantiate_void W moved_from o F) as [[P body] |]; reflexivity.
Qed.

Lemma Promise_PromiseFactoryImpl_void (c c' : value_category) (F : ty)
  (f f' : den W F) :
  Promise (PromiseFactoryImpl_void moved_from c F f) =
  Promise (PromiseFactoryImpl_void moved_from c' F f').
Proof.
  unfold PromiseFactoryImpl_void.
  destruct (overload_resolution W F None) as [e | o]; [reflexivity |].
  apply Promise_run_overload_void.
Qed.

Lemma PromiseFactoryImpl_void_left_behind (c : value_category) (F : ty)
  (f f' : den W F) (w : W) (o : overload) :
  overload_resolution W F None = inr o ->
  left_behind (PromiseFactoryImpl_void moved_from c F f) w = inr f' ->
  f' = if stores_callable o then snd (construct moved_from c F f) else f.
Proof.
  unfold PromiseFactoryImpl_void. intros ->.
  apply run_overload_void_left_behind.
Qed.

(** C1 (defect of the code).  The claim: for a callable [f] taking one
    argument of type [A] and returning a raw value, [PromiseFactoryImpl(f, x)]
    is a promise whose invocation returns done(f(x)).  The code: of the two
    overloads that take the argument, the condition of the capturing one
    holds; its body names [Curried<A, F>] where the class is declared
    [Curried<F, Arg>], and that class cannot be instantiated from a
    callable and its argument.  The call [PromiseFactoryImpl(f, x)] does
    not get that far: substituting into the argument-dropping overload
    names [ResultOf<F()>], which stops the translation.  Neither
    [PromiseFactoryImpl(f, x)] nor [Once(x)] yields a promise. *)
Theorem C1_capture_instantiates_Curried_backwards
  (c : value_category) (A R : ty) (f : den W (TFn1 A R)) (x : den W A) :
  IsVoidCallable W R = false ->
  substitute W Capture (TFn1 A R) (Some A) = Viable /\
  substitute W CallWithArg (TFn1 A R) (Some A) = Disabled /\
  run_overload moved_from Capture c (TFn1 A R) A f x
    = inl (IllFormedInstantiation Capture) /\
  PromiseFactoryImpl moved_from c (TFn1 A R) A f x
    = inl (IncompleteResultOf WrapDropArg) /\
  Once moved_from (MakeFactory W A (TFn1 A R) f) x
    = inl (IncompleteResultOf WrapDropArg).
Proof.
  intros HR.
  assert (Hres : overload_resolution W (TFn1 A R) (Some A)
                 = inl (IncompleteResultOf WrapDropArg)).
  { unfold_resolution. rewrite invoke1_Fn1. cbn. rewrite HR. reflexivity. }
  assert (Hbody : Capture_body W moved_from (TFn1 A R) A = None)
    by (apply Capture_body_ill_formed; rewrite invoke1_Fn1; discriminate).
  repeat split.
  - unfold substitute, ResultOf1, ResultOfTInner1. rewrite invoke1_Fn1.
    cbn. rewrite HR. reflexivity.
  - unfold substitute, ResultOf1, ResultOfTInner1. rewrite invoke1_Fn1.
    cbn. rewrite HR. reflexivity.
  - unfold run_overload, run_body, substitute, ResultOf1, ResultOfTInner1.
    rewrite invoke1_Fn1. cbn. rewrite HR. cbn. rewrite Hbody. reflexivity.
  - unfold PromiseFactoryImpl. rewrite Hres. reflexivity.
  - unfold Once, PromiseFactoryImpl. cbn [f_]. rewrite Hres. reflexivity.
Qed.

(** C2 (as amended).  A callable invocable both without arguments and with
    the supplied argument makes two overloads viable, one that drops the
    argument and one that takes it, and the call of [PromiseFactoryImpl] is
    ambiguous: no strategy is selected and no promise is produced. *)
Theorem C2_invocable_both_ways_is_ambiguous (R0 A R1 : ty) :
  exists os o0 o1,
    overload_resolution W (TFn01 R0 A R1) (Some A)
      = inl (AmbiguousOverload os) /\
    In o0 os /\ drops_argument o0 = true /\
    In o1 os /\ drops_argument o1 = false /\
    forall c (f : den W (TFn01 R0 A R1)) (a : den W A),
      PromiseFactoryImpl moved_from c (TFn01 R0 A R1) A f a
      = inl (AmbiguousOverload os).
Proof.
  unfold PromiseFactoryImpl. unfold_resolution.
  rewrite invoke1_Fn01. cbn.
  destruct (IsVoidCallable W R1), (IsVoidCallable W R0); cbn.
  - exists [CallWithArg; CallDropArg], CallDropArg, CallWithArg. simpl. tauto.
  - exists [WrapDropArg; CallWithArg], WrapDropArg, CallWithArg. simpl. tauto.
  - exists [Capture; CallDropArg], CallDropArg, Capture. simpl. tauto.
  - exists [Capture; WrapDropArg], WrapDropArg, Capture. simpl. tauto.
Qed.

(** C3 (as amended).  For a callable [f] taking one argument of type [A] and
    returning a status, the overload whose condition holds is the capturing
    one, as for a raw result, and the overload that invokes [f(x)] at
    adaptation time is disabled: by design the argument is retained in a
    capture, and a promise over the capture of [f] and [x] returns exactly
    [f(x)], invoking [f] at each poll. *)
Theorem C3_status_callable_is_captured (A T : ty) :
  substitute W Capture (TFn1 A (TPoll T)) (Some A) = Viable /\
  substitute W CallWithArg (TFn1 A (TPoll T)) (Some A) = Disabled /\
  forall (f : den W (TFn1 A (TPoll T))) (x : den W A) (w : W),
    poll (TPromiseLike (TCurried (TFn1 A (TPoll T)) A))
         (PromiseLike.Build (Curried.Build f x)) w
    = (let (s, w') := f x w in Some (Dyn (TPoll T) s, w')).
Proof.
  repeat split.
  - unfold substitute, ResultOf1, ResultOfTInner1. rewrite invoke1_Fn1.
    reflexivity.
  - unfold substitute, ResultOf1, ResultOfTInner1. rewrite invoke1_Fn1.
    reflexivity.
  - intros f x w. unfold poll. cbn [invoke0]. rewrite invoke1_Fn1.
    cbn. unfold bind, ret. destruct (f x w). reflexivity.
Qed.


(** C5 (as amended).  [Once] passes the stored callable to the dispatch as
    an rvalue, and it is an ordinary member function: a second [Once] on
    the factory object it leaves behind is expressible and has the promise
    type of the first.  When the selected overload stores the callable in
    the promise, the factory's callable is left moved-from; when the
    selected overload only invokes it (a callable returning a promise), the
    factory's callable is left as it was.  The same holds of the body of
    each two-argument overload run on [std::move(f_)]. *)
Theorem C5_Once_moves_when_storing_and_can_be_repeated :
  (forall (F : ty) (this fac' : PromiseFactoryVoid W F) (w : W) (o : overload),
     overload_resolution W F None = inr o ->
     left_behind (Once_void moved_from this) w = inr fac' ->
     vf_ fac' = (if stores_callable o then moved_from F (vf_ this) else vf_ this) /\
     Promise (Once_void moved_from fac') = Promise (Once_void moved_from this)) /\
  (forall (o : overload) (A F : ty) (f f' : den W F) (a : den W A) (w : W),
     left_behind (run_overload moved_from o Xvalue F A f a) w = inr f' ->
     f' = if stores_callable o then moved_from F f else f).
Proof.
  split.
  - intros F this fac' w o Hres H. unfold Once_void in *.
    rewrite left_behind_with_member_void in H.
    destruct (left_behind (PromiseFactoryImpl_void moved_from Xvalue F (vf_ this)) w)
      as [e | f'] eqn:E; [discriminate |].
    injection H as <-. cbn [vf_]. split.
    + exact (PromiseFactoryImpl_void_left_behind _ _ _ _ _ _ Hres E).
    + rewrite !Promise_with_member_void. apply Promise_PromiseFactoryImpl_void.
  - intros o A F f f' a w H.
    exact (run_overload_left_behind _ _ _ _ _ _ _ _ H).
Qed.

(** C6.  For every callable [f] taking no arguments and returning a status,
    the adapted promise holds [f], and invoking it returns exactly the
    status that [f] returns, with the effects of that one invocation: the
    status is not wrapped again. *)
Theorem C6_status_callable_is_adapted_by_identity
  (c : value_category) (T : ty) (f : den W (TFn0 (TPoll T))) :
  overload_resolution W (TFn0 (TPoll T)) None = inr Wrap /\
  (forall w0 : W,
     produced (PromiseFactoryImpl_void moved_from c (TFn0 (TPoll T)) f) w0
     = inr (Dyn (TPromiseLike (TFn0 (TPoll T))) (PromiseLike.Build f), w0)) /\
  (forall w : W,
     poll (TPromiseLike (TFn0 (TPoll T))) (PromiseLike.Build f) w
     = (let (s, w') := f w in Some (Dyn (TPoll T) s, w'))).
Proof.
  split; [reflexivity |]. split.
  - intros w0. destruct c; reflexivity.
  - intros w. unfold poll. cbn. unfold bind, ret. destruct (f w). reflexivity.
Qed.


(** *** Pure callables *)

Lemma WrapInPoll_pure (R : ty) (v : den W R) :
  Pure R v -> Pure (PollWrap R) (WrapInPoll W R v).
Proof. destruct R; simpl; auto. Qed.

Lemma PollWrap_is_Poll (R : ty) (v : den W R) :
  exists T s, Dyn (PollWrap R) (WrapInPoll W R v) = Dyn (TPoll T) s.
Proof.
  destruct R as [| T | R | A R | R0 A R1 | F Arg | F]; simpl.
  - exists TInt, (Ready v : den W (TPoll TInt)). reflexivity.
  - exists T, v. reflexivity.
  - exists (TFn0 R), (Ready v : den W (TPoll (TFn0 R))). reflexivity.
  - exists (TFn1 A R), (Ready v : den W (TPoll (TFn1 A R))). reflexivity.
  - exists (TFn01 R0 A R1), (Ready v : den W (TPoll (TFn01 R0 A R1))).
    reflexivity.
  - exists (TCurried F Arg), (Ready v : den W (TPoll (TCurried F Arg))).
    reflexivity.
  - exists (TPromiseLike F), (Ready v : den W (TPoll (TPromiseLike F))).
    reflexivity.
Qed.

(** A converted pure value is pure. *)
Lemma convert_pure (S T : ty) (cv : den W S -> den W T) :
  convert W S T = Some cv -> forall x, Pure S x -> Pure T (cv x).
Proof.
  unfold convert. destruct (ty_eq_dec S T) as [-> | _].
  - intros [= <-] x Hx. exact Hx.
  - destruct T; try discriminate;
      (destruct (ty_eq_dec S T) as [-> | _]; [| discriminate]);
      intros [= <-] x Hx; exact Hx.
Qed.

Lemma invoke1_pure (F A : ty) :
  match invoke1 W F A with
  | Some (existT _ R call) =>
      forall f a, Pure F f -> Pure A a ->
                  exists v, (forall w, call f a w = (v, w)) /\ Pure R v
  | None => True
  end.
Proof.
  destruct F; simpl; trivial.
  - destruct (convert W A F1) as [cv |] eqn:E; trivial.
    intros f a Hf Ha. exact (Hf (cv a) (convert_pure _ _ _ E a Ha)).
  - destruct (convert W A F2) as [cv |] eqn:E; trivial.
    intros f a [_ Hf] Ha. exact (Hf (cv a) (convert_pure _ _ _ E a Ha)).
Qed.

Lemma invoke0_pure (F : ty) :
  match invoke0 W F with
  | Some (existT _ R call) =>
      forall f, Pure F f -> exists v, (forall w, call f w = (v, w)) /\ Pure R v
  | None => True
  end.
Proof.
  induction F; cbn [invoke0]; trivial.
  - intros f [Hf _]. exact Hf.
  - pose proof (invoke1_pure F1 F2) as H1.
    destruct (invoke1 W F1 F2) as [[R call] |]; trivial.
    intros [f x] [Hf Hx]. exact (H1 f x Hf Hx).
  - destruct (invoke0 W F) as [[R call] |]; trivial.
    intros [f] Hf. destruct (IHF f Hf) as (v & Hv & Pv).
    exists (WrapInPoll W R v). split.
    + intros w. cbn. unfold bind, ret. rewrite Hv. reflexivity.
    + apply WrapInPoll_pure, Pv.
Qed.

(** A promise over a pure callable yields the same status at every poll and
    leaves the world as it was. *)
Lemma poll_PromiseLike_pure (F : ty) (f : den W F) :
  IsVoidCallable W F = true -> Pure F f ->
  exists T s, forall w,
      poll (TPromiseLike F) (PromiseLike.Build f) w = Some (Dyn (TPoll T) s, w).
Proof.
  unfold IsVoidCallable, poll. cbn [invoke0]. intros HF Hf.
  pose proof (invoke0_pure F) as H0.
  destruct (invoke0 W F) as [[R call] |]; [| discriminate].
  destruct (H0 f Hf) as (v & Hv & _).
  destruct (PollWrap_is_Poll R v) as (T & s & E).
  exists T, s. intros w. cbn [PromiseLike.f_]. unfold bind, ret.
  rewrite Hv, E. reflexivity.
Qed.

Lemma Wrap_pure (F : ty) (f : den W F) (R : ty) call :
  invoke0 W F = Some (existT _ R call) -> Pure F f ->
  settled (TPromiseLike F) F (ret (PromiseLike.Build f, f)) f.
Proof.
  intros E Hf.
  destruct (poll_PromiseLike_pure F f) as (T & s & Hp); trivial.
  { unfold IsVoidCallable. rewrite E. reflexivity. }
  exists (PromiseLike.Build f), T, s. split; [reflexivity | exact Hp].
Qed.

Lemma Call_pure (F R : ty) (f : den W F) (m : State.M W (den W R)) :
  IsVoidCallable W R = true ->
  (exists v, (forall w, m w = (v, w)) /\ Pure R v) ->
  settled (TPromiseLike R) F (p <- m ;; ret (PromiseLike.Build p, f)) f.
Proof.
  intros HV (v & Hv & Pv).
  destruct (poll_PromiseLike_pure R v HV Pv) as (T & s & Hp).
  exists (PromiseLike.Build v), T, s. split; [| exact Hp].
  intros w. unfold bind, ret. rewrite Hv. reflexivity.
Qed.

Ltac viable_cases H :=
  unfold substitute, ResultOf1, ResultOf0, ResultOfTInner1, ResultOfTInner0 in H.

Lemma run_overload_pure (o : overload) (F A : ty) (f : den W F) (a : den W A) :
  Pure F f -> Pure A a ->
  match run_overload moved_from o ConstLvalue F A f a with
  | inl _ => True
  | inr (existT _ P m) => settled P F m f
  end.
Proof.
  intros Hf Ha. unfold run_overload.
  destruct (substitute W o F (Some A)) eqn:Hen; trivial.
  unfold run_body. viable_cases Hen.
  destruct o; cbn [instantiate]; try discriminate.
  - rewrite Capture_body_ill_formed; trivial.
    intros E. rewrite E in Hen. discriminate.
  - unfold drop_arg, Wrap_body.
    destruct (invoke0 W F) as [[R call] |] eqn:E; trivial.
    exact (Wrap_pure F f R call E Hf).
  - unfold CallWithArg_body. pose proof (invoke1_pure F A) as H1.
    destruct (invoke1 W F A) as [[R call] |]; trivial. cbn in Hen.
    destruct (IsVoidCallable W R) eqn:HV; [| discriminate].
    exact (Call_pure F R f _ HV (H1 f a Hf Ha)).
  - unfold drop_arg, Call_body. pose proof (invoke0_pure F) as H0.
    destruct (invoke0 W F) as [[R call] |]; trivial. cbn in Hen.
    destruct (IsVoidCallable W R) eqn:HV; [| discriminate].
    exact (Call_pure F R f _ HV (H0 f Hf)).
Qed.

Lemma run_overload_void_pure (o : overload) (F : ty) (f : den W F) :
  Pure F f ->
  match run_overload_void moved_from o ConstLvalue F f with
  | inl _ => True
  | inr (existT _ P m) => settled P F m f
  end.
Proof.
  intros Hf. unfold run_overload_void.
  destruct (substitute W o F None) eqn:Hen; trivial.
  unfold run_body_void. viable_cases Hen.
  destruct o; cbn [instantiate_void]; try discriminate.
  - unfold Wrap_body.
    destruct (invoke0 W F) as [[R call] |] eqn:E; trivial.
    exact (Wrap_pure F f R call E Hf).
  - unfold Call_body. pose proof (invoke0_pure F) as H0.
    destruct (invoke0 W F) as [[R call] |]; trivial. cbn in Hen.
    destruct (IsVoidCallable W R) eqn:HV; [| discriminate].
    exact (Call_pure F R f _ HV (H0 f Hf)).
Qed.

Lemma Repeated_void_pure (F : ty) (this : PromiseFactoryVoid W F) :
  Pure F (vf_ this) ->
  match Repeated_void moved_from this with
  | inl _ => True
  | inr (existT _ P m) =>
      exists p T s,
        (forall w, m w = ((p, this), w)) /\
        (forall w, poll P p w = Some (Dyn (TPoll T) s, w))
  end.
Proof.
  intros Hf. unfold Repeated_void, PromiseFactoryImpl_void.
  destruct (overload_resolution W F None) as [e | o]; simpl; trivial.
  pose proof (run_overload_void_pure o F (vf_ this) Hf) as L.
  destruct (run_overload_void moved_from o ConstLvalue F (vf_ this))
    as [e | [P m]]; simpl; trivial.
  destruct L as (p & T & s & Hm & Hp). exists p, T, s. split; [| exact Hp].
  intros w. unfold bind, ret. rewrite Hm. destruct this. reflexivity.
Qed.

Lemma replicate_pure (X : Type) (m : State.M W X) (x : X) :
  (forall w, m w = (x, w)) ->
  forall n w, replicate n m w = (repeat x n, w).
Proof.
  intros Hm. induction n as [| n IH]; intros w; simpl.
  - reflexivity.
  - unfold bind, ret. rewrite Hm, IH. reflexivity.
Qed.

(** C7 (defect of the code).  The claim: [N] calls of [Repeated] with equal
    arguments on a factory over a pure callable produce [N] promises that
    yield the same status.  The code: the call [PromiseFactoryImpl(f_, a)]
    that [PromiseFactory<A, F>::Repeated] makes selects no overload,
    whatever the callable, so [Repeated(a)] produces no promise; for a
    callable of one argument the translation stops on [ResultOf<F()>].  The
    specialization [PromiseFactory<void, F>::Repeated] does what the claim
    says: whenever it is well-formed, [N] successive calls over a pure
    callable produce [N] equal promises, leave the factory and the world
    unchanged, and every invocation of any of them yields the same
    status. *)
Theorem C7_Repeated_with_argument_produces_no_promise :
  (forall (A F : ty) (this : PromiseFactory W A F) (a : den W A),
     exists e,
       overload_resolution W F (Some A) = inl e /\
       Repeated moved_from this a = inl e /\
       forall w : W, produced (Repeated moved_from this a) w = inl e) /\
  (forall (A R : ty) (f : den W (TFn1 A R)) (x : den W A),
     Repeated moved_from (MakeFactory W A (TFn1 A R) f) x
     = inl (IncompleteResultOf WrapDropArg)) /\
  (forall (F : ty) (this : PromiseFactoryVoid W F) (P : ty)
          (m : State.M W (den W P * PromiseFactoryVoid W F)),
     Pure F (vf_ this) ->
     Repeated_void moved_from this = inr (existT _ P m) ->
     exists (p : den W P) (T : ty) (s : den W (TPoll T)),
       (forall (n : nat) (w : W), replicate n m w = (repeat (p, this) n, w)) /\
       (forall w : W, poll P p w = Some (Dyn (TPoll T) s, w))).
Proof.
  split; [| split].
  - intros A F this a. destruct (resolve_with_argument F A) as [e He].
    exists e. unfold Repeated, PromiseFactoryImpl. rewrite He.
    repeat split; reflexivity.
  - intros A R f x. unfold Repeated, PromiseFactoryImpl. cbn [f_].
    unfold_resolution. rewrite invoke1_Fn1. cbn.
    destruct (IsVoidCallable W R); reflexivity.
  - intros F this P m Hf H. pose proof (Repeated_void_pure F this Hf) as L.
    rewrite H in L. destruct L as (p & T & s & Hm & Hp).
    exists p, T, s. split; [| exact Hp]. apply replicate_pure, Hm.
Qed.

(** C9.  A capture of [f] and [x] does not cache: each invocation of the
    capture, and of a promise over it, is one invocation of [f] on the
    captured [x] in the current world, so two successive invocations are
    two successive invocations of [f]; and when [f(x)] is pure, any two
    invocations return the same result. *)
Theorem C9_Curried_invokes_the_callable_afresh
  (A R : ty) (f : den W (TFn1 A R)) (x : den W A) :
  (forall w : W,
     poll (TCurried (TFn1 A R) A) (Curried.Build f x) w
     = (let (v, w') := f x w in Some (Dyn R v, w'))) /\
  (forall w : W,
     poll (TPromiseLike (TCurried (TFn1 A R) A))
          (PromiseLike.Build (Curried.Build f x)) w
     = (let (v, w') := f x w in
        Some (Dyn (PollWrap R) (WrapInPoll W R v), w'))) /\
  (forall w : W,
     poll_twice (TCurried (TFn1 A R) A) (Curried.Build f x) w
     = (let (v1, w1) := f x w in
        let (v2, w2) := f x w1 in Some (Dyn R v1, Dyn R v2, w2))) /\
  (forall v : den W R,
     (forall w, f x w = (v, w)) ->
     forall w1 w2 : W,
       option_map fst (poll (TCurried (TFn1 A R) A) (Curried.Build f x) w1)
       = option_map fst (poll (TCurried (TFn1 A R) A) (Curried.Build f x) w2)).
Proof.
  assert (Hpoll : forall w : W,
             poll (TCurried (TFn1 A R) A) (Curried.Build f x) w
             = (let (v, w') := f x w in Some (Dyn R v, w'))).
  { intros w. unfold poll. cbn [invoke0]. rewrite invoke1_Fn1. reflexivity. }
  split; [exact Hpoll |]. split; [| split].
  - intros w. unfold poll. cbn [invoke0]. rewrite invoke1_Fn1. cbn.
    unfold bind, ret. destruct (f x w). reflexivity.
  - intros w. unfold poll_twice. rewrite Hpoll.
    destruct (f x w) as [v1 w1]. rewrite Hpoll.
    destruct (f x w1) as [v2 w2]. reflexivity.
  - intros v Hv w1 w2. rewrite !Hpoll, !Hv. reflexivity.
Qed.

(** C10 (defect of the code).  The claim: a callable whose result is itself
    invocable without arguments is invoked at [Once]/[Repeated] time, and
    what it returns is the promise that is polled.  The code does so for a
    callable taking no arguments through [PromiseFactory<void, F>]:
    [Once()] and [Repeated()] select the calling overload, run the callable
    with its effects on the world and hand back its result as the promise,
    and polling that promise invokes the returned value, not the
    callable.  For a callable of one argument the condition of the
    overload made for it holds, yet the call [PromiseFactoryImpl(f, x)],
    and with it [Once(x)] and [Repeated(x)], stops on [ResultOf<F()>]; for
    a callable of no arguments given an argument the call stops on
    [ResultOf<F(A)>].  Neither invokes the callable nor produces a
    promise. *)
Theorem C10_promise_returning_callable_is_invoked_eagerly
  (A R R' : ty) (callp : den W R -> State.M W (den W R')) :
  invoke0 W R = Some (existT _ R' callp) ->
  (substitute W CallWithArg (TFn1 A R) (Some A) = Viable /\
   forall (c : value_category) (f : den W (TFn1 A R)) (x : den W A),
     PromiseFactoryImpl moved_from c (TFn1 A R) A f x
       = inl (IncompleteResultOf WrapDropArg) /\
     Once moved_from (MakeFactory W A (TFn1 A R) f) x
       = inl (IncompleteResultOf WrapDropArg) /\
     Repeated moved_from (MakeFactory W A (TFn1 A R) f) x
       = inl (IncompleteResultOf WrapDropArg)) /\
  (substitute W CallDropArg (TFn0 R) (Some A) = Viable /\
   forall (c : value_category) (f : den W (TFn0 R)) (x : den W A),
     PromiseFactoryImpl moved_from c (TFn0 R) A f x
       = inl (IncompleteResultOf Capture) /\
     Once moved_from (MakeFactory W A (TFn0 R) f) x
       = inl (IncompleteResultOf Capture) /\
     Repeated moved_from (MakeFactory W A (TFn0 R) f) x
       = inl (IncompleteResultOf Capture)) /\
  (overload_resolution W (TFn0 R) None = inr Call /\
   forall (f : den W (TFn0 R)) (w : W),
     produced (Once_void moved_from (MakeFactoryVoid W (TFn0 R) f)) w
     = (let (p, w') := f w in
        inr (Dyn (TPromiseLike R) (PromiseLike.Build p), w')) /\
     produced (Repeated_void moved_from (MakeFactoryVoid W (TFn0 R) f)) w
     = (let (p, w') := f w in
        inr (Dyn (TPromiseLike R) (PromiseLike.Build p), w'))) /\
  (forall (p : den W R) (w : W),
     poll (TPromiseLike R) (PromiseLike.Build p) w
     = (let (v, w') := callp p w in
        Some (Dyn (PollWrap R') (WrapInPoll W R' v), w'))).
Proof.
  intros HR.
  assert (HV : IsVoidCallable W R = true)
    by (unfold IsVoidCallable; rewrite HR; reflexivity).
  assert (Hres : overload_resolution W (TFn0 R) None = inr Call)
    by (rewrite (resolve_void (TFn0 R) R (fun f => f) eq_refl), HV; reflexivity).
  assert (H1 : overload_resolution W (TFn1 A R) (Some A)
               = inl (IncompleteResultOf WrapDropArg)).
  { unfold_resolution. rewrite invoke1_Fn1. cbn. rewrite HV. reflexivity. }
  assert (H0 : overload_resolution W (TFn0 R) (Some A)
               = inl (IncompleteResultOf Capture)) by reflexivity.
  split; [| split; [| split]].
  - split.
    + unfold substitute, ResultOf1, ResultOfTInner1. rewrite invoke1_Fn1.
      cbn. rewrite HV. reflexivity.
    + intros c f x. unfold Once, Repeated, PromiseFactoryImpl. cbn [f_].
      rewrite H1. repeat split; reflexivity.
  - split.
    + unfold substitute, ResultOf0, ResultOfTInner0. cbn. rewrite HV.
      reflexivity.
    + intros c f x. unfold Once, Repeated, PromiseFactoryImpl. cbn [f_].
      rewrite H0. repeat split; reflexivity.
  - split; [exact Hres |].
    intros f w. unfold Once_void, Repeated_void, PromiseFactoryImpl_void.
    rewrite !produced_with_member_void. cbn [vf_]. rewrite Hres.
    rewrite (run_overload_void_category Call Xvalue ConstLvalue).
    match goal with |- ?G /\ ?G => cut G; [tauto |] end.
    unfold run_overload_void, run_body_void, substitute, ResultOf0,
      ResultOfTInner0. cbn. rewrite HV. cbn.
    unfold bind, ret. destruct (f w). reflexivity.
  - intros p w. unfold poll. cbn [invoke0]. rewrite HR. cbn.
    unfold bind, ret. destruct (callp p w). reflexivity.
Qed.

(** *** Further properties of the dispatch *)

(** X1.  A call [PromiseFactoryImpl(f, a)] with two arguments never selects
    an overload.  When [f] is not invocable with the argument, substituting
    into the capturing overload stops on [ResultOf<F(A)>]; when it is, but
    [f] is not invocable without arguments, substituting into the
    argument-dropping overload stops on [ResultOf<F()>]; when [f] is
    invocable both ways, exactly two overloads are viable and the call is
    ambiguous.  [Once(a)] and [Repeated(a)] of [PromiseFactory<A, F>] fail
    with the same diagnostic. *)
Theorem X1_call_with_argument_selects_no_overload (F A : ty) :
  exists e,
    e = match ResultOf1 W F A, ResultOf0 W F with
        | None, _ => IncompleteResultOf Capture
        | Some _, None => IncompleteResultOf WrapDropArg
        | Some _, Some _ => AmbiguousOverload (viable W F (Some A))
        end /\
    overload_resolution W F (Some A) = inl e /\
    (ResultOf1 W F A <> None -> ResultOf0 W F <> None ->
     length (viable W F (Some A)) = 2) /\
    forall (this : PromiseFactory W A F) (a : den W A),
      Once moved_from this a = inl e /\ Repeated moved_from this a = inl e.
Proof.
  eexists. split; [reflexivity |].
  assert (Hres : overload_resolution W F (Some A) =
                 inl match ResultOf1 W F A, ResultOf0 W F with
                     | None, _ => IncompleteResultOf Capture
                     | Some _, None => IncompleteResultOf WrapDropArg
                     | Some _, Some _ => AmbiguousOverload (viable W F (Some A))
                     end).
  { unfold_resolution.
    destruct (invoke1 W F A) as [[R1 call1] |]; cbn; [| reflexivity].
    destruct (invoke0 W F) as [[R0 call0] |]; cbn;
      destruct (IsVoidCallable W R1); try destruct (IsVoidCallable W R0);
      reflexivity. }
  split; [exact Hres |]. split.
  - unfold viable, overloads, enabled, substitute, ResultOf1, ResultOf0,
      ResultOfTInner1, ResultOfTInner0.
    destruct (invoke1 W F A) as [[R1 call1] |]; cbn;
      [| intros H; congruence].
    destruct (invoke0 W F) as [[R0 call0] |]; cbn;
      [| intros _ H; congruence].
    intros _ _.
    destruct (IsVoidCallable W R1), (IsVoidCallable W R0); reflexivity.
  - intros this a. unfold Once, Repeated, PromiseFactoryImpl.
    rewrite Hres. split; reflexivity.
Qed.


Lemma PollWrap_shape (R : ty) : exists T, PollWrap R = TPoll T.
Proof. destruct R; simpl; eexists; reflexivity. Qed.

Lemma ResultOf0_PromiseLike (X R : ty) call :
  invoke0 W X = Some (existT _ R call) ->
  exists T, ResultOf0 W (TPromiseLike X) = Some (TPoll T).
Proof.
  intros E. unfold ResultOf0, ResultOfTInner0. cbn [invoke0]. rewrite E.
  destruct (PollWrap_shape R) as [T HT]. exists T. cbn. rewrite HT. reflexivity.
Qed.

Lemma run_overload_void_contract (o : overload) (c : value_category) (F : ty)
  (f : den W F) :
  match run_overload_void moved_from o c F f with
  | inl _ => True
  | inr (existT _ P _) => exists T, ResultOf0 W P = Some (TPoll T)
  end.
Proof.
  unfold run_overload_void.
  destruct (substitute W o F None) eqn:Hs; trivial.
  unfold run_body_void. viable_cases Hs.
  destruct o; cbn [instantiate_void]; try discriminate.
  - unfold Wrap_body. destruct (invoke0 W F) as [[R call] |] eqn:E; trivial.
    exact (ResultOf0_PromiseLike F R call E).
  - unfold Call_body. destruct (invoke0 W F) as [[R call] |] eqn:E; trivial.
    cbn in Hs. unfold IsVoidCallable in Hs.
    destruct (invoke0 W R) as [[R' call'] |] eqn:E'; [| discriminate].
    exact (ResultOf0_PromiseLike R R' call' E').
Qed.

Lemma run_overload_contract (o : overload) (c : value_category) (F A : ty)
  (f : den W F) (a : den W A) :
  match run_overload moved_from o c F A f a with
  | inl _ => True
  | inr (existT _ P _) => exists T, ResultOf0 W P = Some (TPoll T)
  end.
Proof.
  unfold run_overload.
  destruct (substitute W o F (Some A)) eqn:Hs; trivial.
  unfold run_body. viable_cases Hs.
  destruct o; cbn [instantiate]; try discriminate.
  - rewrite Capture_body_ill_formed; trivial.
    intros E. rewrite E in Hs. discriminate.
  - unfold drop_arg, Wrap_body.
    destruct (invoke0 W F) as [[R call] |] eqn:E; trivial.
    exact (ResultOf0_PromiseLike F R call E).
  - unfold CallWithArg_body.
    destruct (invoke1 W F A) as [[R call] |] eqn:E; trivial.
    cbn in Hs. unfold IsVoidCallable in Hs.
    destruct (invoke0 W R) as [[R' call'] |] eqn:E'; [| discriminate].
    exact (ResultOf0_PromiseLike R R' call' E').
  - unfold drop_arg, Call_body.
    destruct (invoke0 W F) as [[R call] |] eqn:E; trivial.
    cbn in Hs. unfold IsVoidCallable in Hs.
    destruct (invoke0 W R) as [[R' call'] |] eqn:E'; [| discriminate].
    exact (ResultOf0_PromiseLike R R' call' E').
Qed.

(** X3.  Whatever the shape of the callable, a promise handed back by the
    dispatch satisfies the promise contract: its type is invocable without
    arguments and the result of invoking it is a [Poll].  This holds for
    the call [PromiseFactoryImpl(f)] and for each two-argument overload
    taken on its own. *)
Theorem X3_every_promise_is_invocable_and_yields_a_Poll :
  (forall (c : value_category) (F : ty) (f : den W F) (P : ty)
          (m : State.M W (den W P * den W F)),
     PromiseFactoryImpl_void moved_from c F f = inr (existT _ P m) ->
     IsVoidCallable W P = true /\ exists T, ResultOf0 W P = Some (TPoll T)) /\
  (forall (o : overload) (c : value_category) (F A : ty) (f : den W F)
          (a : den W A) (P : ty) (m : State.M W (den W P * den W F)),
     run_overload moved_from o c F A f a = inr (existT _ P m) ->
     IsVoidCallable W P = true /\ exists T, ResultOf0 W P = Some (TPoll T)).
Proof.
  assert (Hiv : forall P T, ResultOf0 W P = Some (TPoll T) ->
                            IsVoidCallable W P = true).
  { intros P T. unfold ResultOf0, ResultOfTInner0, IsVoidCallable.
    destruct (invoke0 W P); [reflexivity | discriminate]. }
  split.
  - intros c F f P m H. unfold PromiseFactoryImpl_void in H.
    destruct (overload_resolution W F None) as [e | o]; [discriminate |].
    pose proof (run_overload_void_contract o c F f) as L. rewrite H in L.
    destruct L as [T HT]. split; [exact (Hiv P T HT) | exists T; exact HT].
  - intros o c F A f a P m H.
    pose proof (run_overload_contract o c F A f a) as L. rewrite H in L.
    destruct L as [T HT]. split; [exact (Hiv P T HT) | exists T; exact HT].
Qed.

(** *** Polling repeatedly *)

Lemma poll_times_of (P : ty) (p : den W P) (X : Type) (m : State.M W X)
  (g : X -> dyn W) :
  (forall w, poll P p w = (let (v, w') := m w in Some (g v, w'))) ->
  forall n w,
    poll_times n P p w
    = (let (vs, w') := replicate n m w in Some (map g vs, w')).
Proof.
  intros H. induction n as [| n IH]; intros w; simpl.
  - reflexivity.
  - rewrite H. unfold bind, ret. destruct (m w) as [v w1]. rewrite IH.
    destruct (replicate n m w1) as [vs w2]. reflexivity.
Qed.

Lemma poll_PromiseLike (F R : ty) call (f : den W F) (w : W) :
  invoke0 W F = Some (existT _ R call) ->
  poll (TPromiseLike F) (PromiseLike.Build f) w
  = (let (v, w') := call f w in
     Some (Dyn (PollWrap R) (WrapInPoll W R v), w')).
Proof.
  intros E. unfold poll. cbn [invoke0]. rewrite E. cbn.
  unfold bind, ret. destruct (call f w). reflexivity.
Qed.

Lemma WrapInPoll_raw (R : ty) (v : den W R) :
  (forall T, R <> TPoll T) ->
  Dyn (PollWrap R) (WrapInPoll W R v) = Dyn (TPoll R) (Ready v).
Proof.
  intros H. destruct R; try reflexivity. exfalso. exact (H R eq_refl).
Qed.

(** What the one-argument call does when the wrapping overload is selected:
    it invokes nothing and holds the callable it was given. *)
Lemma Wrap_selected (c : value_category) (F : ty) (f : den W F) :
  overload_resolution W F None = inr Wrap ->
  PromiseFactoryImpl_void moved_from c F f
  = inr (existT _ (TPromiseLike F)
           (let r := construct moved_from c F f in
            ret (PromiseLike.Build (fst r), snd r))).
Proof.
  intros Hres. pose proof (resolution_enabled _ _ _ Hres) as Hen.
  unfold PromiseFactoryImpl_void. rewrite Hres.
  unfold run_overload_void. unfold enabled in Hen.
  destruct (substitute W Wrap F None) eqn:Hs; try discriminate.
  unfold run_body_void. cbn [instantiate_void]. unfold Wrap_body.
  viable_cases Hs.
  destruct (invoke0 W F) as [[R call] |]; [reflexivity | discriminate].
Qed.

(** What the one-argument call does when the calling overload is selected. *)
Lemma Call_selected (c : value_category) (R R' : ty) callp
  (f : den W (TFn0 R)) :
  invoke0 W R = Some (existT _ R' callp) ->
  PromiseFactoryImpl_void moved_from c (TFn0 R) f
  = inr (existT _ (TPromiseLike R)
           (p <- f ;; ret (PromiseLike.Build p, f))).
Proof.
  intros HR.
  assert (HV : IsVoidCallable W R = true)
    by (unfold IsVoidCallable; rewrite HR; reflexivity).
  unfold PromiseFactoryImpl_void.
  rewrite (resolve_void (TFn0 R) R (fun f => f) eq_refl), HV.
  unfold run_overload_void, run_body_void, substitute, ResultOf0,
    ResultOfTInner0. cbn. rewrite HV. reflexivity.
Qed.

(** X4.  For a callable [f] taking no arguments and returning a raw value
    (neither a [Poll] nor invocable), [Once()] selects the wrapping
    overload and hands back a promise holding [f] without invoking it;
    each invocation of the promise invokes [f] once and returns
    done(value). *)
Theorem X4_raw_value_callable_is_wrapped_in_done
  (R : ty) (f : den W (TFn0 R)) :
  (forall T, R <> TPoll T) -> IsVoidCallable W R = false ->
  overload_resolution W (TFn0 R) None = inr Wrap /\
  (forall w : W,
     produced (Once_void moved_from (MakeFactoryVoid W (TFn0 R) f)) w
     = inr (Dyn (TPromiseLike (TFn0 R)) (PromiseLike.Build f), w)) /\
  (forall w : W,
     poll (TPromiseLike (TFn0 R)) (PromiseLike.Build f) w
     = (let (v, w') := f w in Some (Dyn (TPoll R) (Ready v), w'))).
Proof.
  intros Hraw HV.
  assert (Hres : overload_resolution W (TFn0 R) None = inr Wrap)
    by (rewrite (resolve_void (TFn0 R) R (fun f => f) eq_refl), HV; reflexivity).
  split; [exact Hres |]. split.
  - intros w. unfold Once_void. rewrite produced_with_member_void.
    cbn [vf_]. rewrite (Wrap_selected Xvalue _ f Hres). reflexivity.
  - intros w. rewrite (poll_PromiseLike (TFn0 R) R (fun f => f) f w eq_refl).
    destruct (f w) as [v w']. rewrite (WrapInPoll_raw R v Hraw). reflexivity.
Qed.

(** X5.  A promise that wraps a callable does not cache: [n] successive
    invocations of the promise are [n] successive invocations of the
    callable, each in the world the previous one left, and the statuses
    come back in that order.  With [Once()] in front, when the wrapping
    overload is selected, nothing more happens: [Once()] itself invokes
    nothing. *)
Theorem X5_wrapped_callable_runs_at_every_poll
  (F R : ty) (call : den W F -> State.M W (den W R)) :
  invoke0 W F = Some (existT _ R call) ->
  (forall (n : nat) (f : den W F) (w : W),
     poll_times n (TPromiseLike F) (PromiseLike.Build f) w
     = (let (vs, w') := replicate n (call f) w in
        Some (map (fun v => Dyn (PollWrap R) (WrapInPoll W R v)) vs, w'))) /\
  (IsVoidCallable W R = false ->
   forall (n : nat) (f : den W F) (w : W),
     Once_void_then_poll moved_from n (MakeFactoryVoid W F f) w
     = (let (vs, w') := replicate n (call f) w in
        Some (map (fun v => Dyn (PollWrap R) (WrapInPoll W R v)) vs, w'))).
Proof.
  intros E.
  assert (Hn : forall (n : nat) (f : den W F) (w : W),
     poll_times n (TPromiseLike F) (PromiseLike.Build f) w
     = (let (vs, w') := replicate n (call f) w in
        Some (map (fun v => Dyn (PollWrap R) (WrapInPoll W R v)) vs, w'))).
  { intros n f. apply poll_times_of. intros w.
    exact (poll_PromiseLike F R call f w E). }
  split; [exact Hn |].
  intros HV n f w.
  assert (Hres : overload_resolution W F None = inr Wrap)
    by (rewrite (resolve_void F R call E), HV; reflexivity).
  unfold Once_void_then_poll, Once_void. rewrite produced_with_member_void.
  cbn [vf_]. rewrite (Wrap_selected Xvalue _ f Hres). cbn. apply Hn.
Qed.

(** X6.  For a callable [f] taking no arguments and returning a promise,
    [Once()] followed by [n] invocations of the promise invokes [f] exactly
    once, at [Once()], and then invokes the promise that [f] returned [n]
    times. *)
Theorem X6_promise_returning_callable_runs_exactly_once
  (R R' : ty) (callp : den W R -> State.M W (den W R')) :
  invoke0 W R = Some (existT _ R' callp) ->
  forall (n : nat) (f : den W (TFn0 R)) (w : W),
    Once_void_then_poll moved_from n (MakeFactoryVoid W (TFn0 R) f) w
    = (let (p, w1) := f w in
       let (vs, w2) := replicate n (callp p) w1 in
       Some (map (fun v => Dyn (PollWrap R') (WrapInPoll W R' v)) vs, w2)).
Proof.
  intros HR n f w.
  unfold Once_void_then_poll, Once_void. rewrite produced_with_member_void.
  cbn [vf_]. rewrite (Call_selected Xvalue R R' callp f HR). cbn.
  unfold bind, ret. destruct (f w) as [p w1]. cbn.
  apply poll_times_of. intros w'. exact (poll_PromiseLike R R' callp p w' HR).
Qed.


(** X9.  Nothing resets or guards a factory after [Once()].  When the
    wrapping overload is selected, [Once()] leaves the moved-from callable
    in the factory, and a later [Once()] or [Repeated()] on that factory
    hands back a promise over the moved-from callable, not over the
    original. *)
Theorem X9_after_Once_the_factory_holds_the_moved_from_callable
  (F : ty) (this : PromiseFactoryVoid W F) :
  overload_resolution W F None = inr Wrap ->
  forall w : W,
    left_behind (Once_void moved_from this) w
    = inr (MakeFactoryVoid W F (moved_from F (vf_ this))) /\
    produced (Once_void moved_from
                (MakeFactoryVoid W F (moved_from F (vf_ this)))) w
    = inr (Dyn (TPromiseLike F)
             (PromiseLike.Build (moved_from F (vf_ this))), w) /\
    produced (Repeated_void moved_from
                (MakeFactoryVoid W F (moved_from F (vf_ this)))) w
    = inr (Dyn (TPromiseLike F)
             (PromiseLike.Build (moved_from F (vf_ this))), w).
Proof.
  intros Hres w. destruct this as [f]. cbn [vf_].
  unfold Once_void, Repeated_void. cbn [vf_].
  rewrite left_behind_with_member_void, !produced_with_member_void.
  rewrite !(Wrap_selected Xvalue _ _ Hres), (Wrap_selected ConstLvalue _ _ Hres).
  repeat split; reflexivity.
Qed.

(** X10.  Passing a promise to the dispatch yields just that promise: for
    a callable [p] whose invocation without arguments already yields a
    [Poll], the wrapping overload is selected, nothing is invoked, and
    invoking the promise handed back is invoking [p], with the same status
    and the same effects. *)
Theorem X10_adapting_a_promise_yields_that_promise
  (c : value_category) (P T : ty)
  (call : den W P -> State.M W (den W (TPoll T))) :
  invoke0 W P = Some (existT _ (TPoll T) call) ->
  overload_resolution W P None = inr Wrap /\
  forall (p : den W P) (w : W),
    produced (PromiseFactoryImpl_void moved_from c P p) w
    = inr (Dyn (TPromiseLike P) (PromiseLike.Build p), w) /\
    poll (TPromiseLike P) (PromiseLike.Build p) w = poll P p w.
Proof.
  intros E.
  assert (Hres : overload_resolution W P None = inr Wrap)
    by (rewrite (resolve_void P (TPoll T) call E); reflexivity).
  split; [exact Hres |]. intros p w. split.
  - rewrite (Wrap_selected c _ p Hres). destruct c; reflexivity.
  - rewrite (poll_PromiseLike P (TPoll T) call p w E).
    unfold poll. rewrite E. reflexivity.
Qed.

(** X11.  A capture keeps its argument: [n] successive invocations of a
    [Curried] holding [f] and [x] are [n] successive invocations of [f] on
    the same [x], each in the world the previous one left, for every type
    of callable that accepts the argument. *)
Theorem X11_Curried_passes_the_same_argument_every_time
  (F A R : ty) (call : den W F -> den W A -> State.M W (den W R)) :
  invoke1 W F A = Some (existT _ R call) ->
  forall (n : nat) (f : den W F) (x : den W A) (w : W),
    poll_times n (TCurried F A) (Curried.Build f x) w
    = (let (vs, w') := replicate n (call f x) w in
       Some (map (fun v => Dyn R v) vs, w')).
Proof.
  intros E n f x. apply poll_times_of. intros w.
  unfold poll. cbn [invoke0]. rewrite E. reflexivity.
Qed.

End Properties.

(** ** The properties at the example callables *)

Module Instances.
Import Examples.
Open Scope Z_scope.

(** The no-argument factory over [[]() { return 42; }]: [Once()] selects the
    wrapping overload without invoking the callable, and [Once()()] yields
    done(42) after one invocation. *)
Lemma Once_answer_yields_42 :
  exists p,
    produced (Once_void move_is_copy (MakeFactoryVoid Z (TFn0 TInt) answer)) 0
    = inr (p, 0) /\
    poll_dyn p 0 = Some (Dyn (TPoll TInt) (Ready 42), 1).
Proof. eexists. split; reflexivity. Qed.

(** [PromiseFactory<int, decltype(inc)>], asked for [Once(5)]. *)
Lemma C1_witness :
  IsVoidCallable Z TInt = false /\
  (substitute Z Capture (TFn1 TInt TInt) (Some TInt) = Viable /\
   substitute Z CallWithArg (TFn1 TInt TInt) (Some TInt) = Disabled /\
   run_overload move_is_copy Capture Xvalue (TFn1 TInt TInt) TInt inc 5
     = inl (IllFormedInstantiation Capture) /\
   PromiseFactoryImpl move_is_copy Xvalue (TFn1 TInt TInt) TInt inc 5
     = inl (IncompleteResultOf WrapDropArg) /\
   Once move_is_copy (MakeFactory Z TInt (TFn1 TInt TInt) inc) 5
     = inl (IncompleteResultOf WrapDropArg)).
Proof.
  split.
  - reflexivity.
  - apply (C1_capture_instantiates_Curried_backwards
             Z move_is_copy Xvalue TInt TInt inc 5).
    reflexivity.
Defined.

(** A callable with both call operators: the capturing overload and the
    argument-dropping overload are both viable, and [Once(5)] is ambiguous;
    the zero-argument strategy is not selected. *)
Lemma C2_counterexample :
  Once move_is_copy (MakeFactory Z TInt (TFn01 TInt TInt TInt) both_ways) 5
    = inl (AmbiguousOverload [Capture; WrapDropArg]) /\
  overload_resolution Z (TFn01 TInt TInt TInt) (Some TInt) <> inr WrapDropArg /\
  overload_resolution Z (TFn01 TInt TInt TInt) (Some TInt) <> inr CallDropArg.
Proof. repeat split; try reflexivity; discriminate. Qed.

(** [poll_fn] takes an [int] and returns a status: the condition of the
    capturing overload holds, and the overload that invokes the callable on
    the argument at adaptation time is disabled and is not selected. *)
Lemma C3_counterexample :
  substitute Z Capture (TFn1 TInt (TPoll TInt)) (Some TInt) = Viable /\
  substitute Z CallWithArg (TFn1 TInt (TPoll TInt)) (Some TInt) = Disabled /\
  overload_resolution Z (TFn1 TInt (TPoll TInt)) (Some TInt) <> inr CallWithArg /\
  run_overload move_is_copy CallWithArg Xvalue (TFn1 TInt (TPoll TInt)) TInt
    poll_fn 3
  = inl NoMatchingOverload.
Proof. repeat split; try reflexivity; discriminate. Qed.

(** Two [Once] calls on one factory object.  Over a callable returning a
    promise, even with move constructors that leave nothing behind, the
    first [Once] leaves the factory as it was and the second yields a
    promise that completes with 42.  Over a trivially copyable callable
    returning a raw value, the second [Once] yields a promise that
    completes with 42 as well. *)
Lemma C5_counterexample :
  (left_behind
     (Once_void move_guts (MakeFactoryVoid Z (TFn0 (TFn0 (TPoll TInt))) make_promise)) 0
   = inr (MakeFactoryVoid Z (TFn0 (TFn0 (TPoll TInt))) make_promise) /\
   exists p2,
     produced
       (Once_void move_guts (MakeFactoryVoid Z (TFn0 (TFn0 (TPoll TInt))) make_promise)) 1
     = inr (p2, 2) /\
     poll_dyn p2 2 = Some (Dyn (TPoll TInt) (Ready 42), 3)) /\
  (left_behind
     (Once_void move_is_copy (MakeFactoryVoid Z (TFn0 TInt) answer)) 0
   = inr (MakeFactoryVoid Z (TFn0 TInt) answer) /\
   exists p2,
     produced
       (Once_void move_is_copy (MakeFactoryVoid Z (TFn0 TInt) answer)) 0
     = inr (p2, 0) /\
     poll_dyn p2 0 = Some (Dyn (TPoll TInt) (Ready 42), 1)).
Proof.
  split; (split; [reflexivity |]); eexists; split; reflexivity.
Qed.

Lemma C5_witness :
  overload_resolution Z (TFn0 TInt) None = inr Wrap /\
  left_behind (Once_void move_guts (MakeFactoryVoid Z (TFn0 TInt) answer)) 0
    = inr (MakeFactoryVoid Z (TFn0 TInt) (move_guts (TFn0 TInt) answer)) /\
  (vf_ (MakeFactoryVoid Z (TFn0 TInt) (move_guts (TFn0 TInt) answer))
   = move_guts (TFn0 TInt) answer /\
   Promise (Once_void move_guts
              (MakeFactoryVoid Z (TFn0 TInt) (move_guts (TFn0 TInt) answer)))
   = Promise (Once_void move_guts (MakeFactoryVoid Z (TFn0 TInt) answer))).
Proof.
  split; [reflexivity |]. split; [reflexivity |].
  apply (proj1 (C5_Once_moves_when_storing_and_can_be_repeated Z move_guts)
               (TFn0 TInt)
               (MakeFactoryVoid Z (TFn0 TInt) answer)
               (MakeFactoryVoid Z (TFn0 TInt) (move_guts (TFn0 TInt) answer))
               0 Wrap); reflexivity.
Defined.

(** [PromiseFactory<int, decltype(poll_fn)>], asked for [Repeated(3)]: the
    call is ill-formed.  The no-argument factory over [ready42], asked for
    [Repeated()] any number of times: equal promises, each yielding the
    same status in every world. *)
Lemma C7_witness :
  Repeated move_guts (MakeFactory Z TInt (TFn1 TInt (TPoll TInt)) poll_fn) 3
    = inl (IncompleteResultOf WrapDropArg) /\
  Pure (TFn0 (TPoll TInt)) ready42 /\
  Repeated_void move_guts (MakeFactoryVoid Z (TFn0 (TPoll TInt)) ready42)
    = inr (existT _ (TPromiseLike (TFn0 (TPoll TInt)))
             (fun w => ((PromiseLike.Build ready42,
                         MakeFactoryVoid Z (TFn0 (TPoll TInt)) ready42), w))) /\
  exists (p : den Z (TPromiseLike (TFn0 (TPoll TInt))))
         (T : ty) (s : den Z (TPoll T)),
    (forall (n : nat) (w : Z),
        replicate n
          (fun w => ((PromiseLike.Build ready42,
                      MakeFactoryVoid Z (TFn0 (TPoll TInt)) ready42), w)) w
        = (repeat (p, MakeFactoryVoid Z (TFn0 (TPoll TInt)) ready42) n, w)) /\
    (forall w : Z,
        poll (TPromiseLike (TFn0 (TPoll TInt))) p w = Some (Dyn (TPoll T) s, w)).
Proof.
  assert (Hf : Pure (TFn0 (TPoll TInt)) ready42)
    by (exists (Ready 42); split; [reflexivity | exact I]).
  pose proof (C7_Repeated_with_argument_produces_no_promise Z move_guts)
    as (_ & Harg & Hvoid).
  split; [exact (Harg TInt (TPoll TInt) poll_fn 3) |].
  split; [exact Hf |]. split; [reflexivity |].
  apply (Hvoid (TFn0 (TPoll TInt))
               (MakeFactoryVoid Z (TFn0 (TPoll TInt)) ready42)
               (TPromiseLike (TFn0 (TPoll TInt))) _ Hf).
  reflexivity.
Defined.



Lemma C9_witness :
  (forall w : Z, twice 3 w = (6, w)) /\
  option_map fst (poll (TCurried (TFn1 TInt TInt) TInt) (Curried.Build twice 3) 0)
  = option_map fst (poll (TCurried (TFn1 TInt TInt) TInt) (Curried.Build twice 3) 10).
Proof.
  split; [reflexivity |].
  apply (proj2 (proj2 (proj2
           (C9_Curried_invokes_the_callable_afresh Z TInt TInt twice 3))) 6).
  reflexivity.
Defined.

(** [make_promise_of] takes an [int] and returns a promise: [Once(3)] and
    [Repeated(3)] are ill-formed.  [make_promise] takes nothing and returns
    a promise: [Once()] invokes it (the world moves from 0 to 1) and hands
    back what it returned. *)
Lemma C10_witness :
  invoke0 Z (TFn0 (TPoll TInt))
    = Some (existT _ (TPoll TInt) (fun f : den Z (TFn0 (TPoll TInt)) => f)) /\
  substitute Z CallWithArg (TFn1 TInt (TFn0 (TPoll TInt))) (Some TInt) = Viable /\
  Once move_guts
    (MakeFactory Z TInt (TFn1 TInt (TFn0 (TPoll TInt))) make_promise_of) 3
  = inl (IncompleteResultOf WrapDropArg) /\
  Repeated move_guts
    (MakeFactory Z TInt (TFn1 TInt (TFn0 (TPoll TInt))) make_promise_of) 3
  = inl (IncompleteResultOf WrapDropArg) /\
  produced
    (Once_void move_guts
       (MakeFactoryVoid Z (TFn0 (TFn0 (TPoll TInt))) make_promise)) 0
  = inr (Dyn (TPromiseLike (TFn0 (TPoll TInt)))
           (PromiseLike.Build (fun w' => (Ready 42, w' + 1))), 1).
Proof.
  split; [reflexivity |].
  pose proof (C10_promise_returning_callable_is_invoked_eagerly
                Z move_guts TInt (TFn0 (TPoll TInt)) (TPoll TInt)
                (fun f => f) eq_refl) as ((Hv & Harg) & _ & (_ & Hvoid) & _).
  split; [exact Hv |].
  split; [exact (proj1 (proj2 (Harg Xvalue make_promise_of 3))) |].
  split; [exact (proj2 (proj2 (Harg Xvalue make_promise_of 3))) |].
  exact (proj1 (Hvoid make_promise 0)).
Defined.

End Instances.

(** ** The further properties at the example callables *)

Module MoreInstances.
Import Examples.
Open Scope Z_scope.

Lemma X1_witness :
  ResultOf1 Z (TFn01 TInt TInt TInt) TInt <> None /\
  ResultOf0 Z (TFn01 TInt TInt TInt) <> None /\
  length (viable Z (TFn01 TInt TInt TInt) (Some TInt)) = 2%nat.
Proof.
  split; [discriminate |]. split; [discriminate |].
  destruct (X1_call_with_argument_selects_no_overload
              Z move_is_copy (TFn01 TInt TInt TInt) TInt)
    as (e & _ & _ & Hl & _).
  apply Hl; discriminate.
Defined.

(** [value_or_zero] takes a status and is given an [int]: the call
    [value_or_zero(3)] is well-formed, the [int] becoming done(3), so
    [ResultOf<F(int)>] is [int] and invoking a capture of the two yields 3;
    the call [PromiseFactoryImpl(value_or_zero, 3)] stops on [ResultOf<F()>]
    in the argument-dropping overload. *)
Lemma argument_is_converted_to_a_status :
  ResultOf1 Z (TFn1 (TPoll TInt) TInt) TInt = Some TInt /\
  ResultOf1 Z (TFn1 TInt TInt) (TPoll TInt) = None /\
  poll (TCurried (TFn1 (TPoll TInt) TInt) TInt) (Curried.Build value_or_zero 3) 0
    = Some (Dyn TInt 3, 1) /\
  substitute Z Capture (TFn1 (TPoll TInt) TInt) (Some TInt) = Viable /\
  PromiseFactoryImpl move_is_copy Xvalue (TFn1 (TPoll TInt) TInt) TInt
    value_or_zero 3
  = inl (IncompleteResultOf WrapDropArg).
Proof. repeat split; reflexivity. Qed.

Lemma X3_witness :
  PromiseFactoryImpl_void move_is_copy Xvalue (TFn0 TInt) answer
    = inr (existT _ (TPromiseLike (TFn0 TInt))
             (fun w => ((PromiseLike.Build answer, answer), w))) /\
  (IsVoidCallable Z (TPromiseLike (TFn0 TInt)) = true /\
   exists T, ResultOf0 Z (TPromiseLike (TFn0 TInt)) = Some (TPoll T)).
Proof.
  split; [reflexivity |].
  apply (proj1 (X3_every_promise_is_invocable_and_yields_a_Poll Z move_is_copy)
               Xvalue (TFn0 TInt) answer (TPromiseLike (TFn0 TInt))
               (fun w => ((PromiseLike.Build answer, answer), w))).
  reflexivity.
Defined.

Lemma X4_witness :
  (forall T, TInt <> TPoll T) /\
  IsVoidCallable Z TInt = false /\
  poll (TPromiseLike (TFn0 TInt)) (PromiseLike.Build answer) 0
  = Some (Dyn (TPoll TInt) (Ready 42), 1).
Proof.
  split; [discriminate |]. split; [reflexivity |].
  apply (proj2 (proj2 (X4_raw_value_callable_is_wrapped_in_done
                         Z move_is_copy TInt answer
                         (fun T => ltac:(discriminate)) eq_refl)) 0).
Defined.

Lemma X5_witness :
  invoke0 Z (TFn0 TInt) = Some (existT _ TInt (fun f : den Z (TFn0 TInt) => f)) /\
  poll_times 3 (TPromiseLike (TFn0 TInt)) (PromiseLike.Build answer) 0
  = Some ([Dyn (TPoll TInt) (Ready 42); Dyn (TPoll TInt) (Ready 42);
           Dyn (TPoll TInt) (Ready 42)], 3).
Proof.
  split; [reflexivity |].
  apply (proj1 (X5_wrapped_callable_runs_at_every_poll
                  Z move_is_copy (TFn0 TInt) TInt (fun f => f) eq_refl)
               3%nat answer 0).
Defined.

Lemma X6_witness :
  invoke0 Z (TFn0 (TPoll TInt))
    = Some (existT _ (TPoll TInt) (fun f : den Z (TFn0 (TPoll TInt)) => f)) /\
  Once_void_then_poll move_guts 2
    (MakeFactoryVoid Z (TFn0 (TFn0 (TPoll TInt))) make_promise) 0
  = Some ([Dyn (TPoll TInt) (Ready 42); Dyn (TPoll TInt) (Ready 42)], 3).
Proof.
  split; [reflexivity |].
  apply (X6_promise_returning_callable_runs_exactly_once
           Z move_guts (TFn0 (TPoll TInt)) (TPoll TInt) (fun f => f) eq_refl
           2%nat make_promise 0).
Defined.


Lemma X9_witness :
  overload_resolution Z (TFn0 TInt) None = inr Wrap /\
  left_behind (Once_void move_guts (MakeFactoryVoid Z (TFn0 TInt) answer)) 0
  = inr (MakeFactoryVoid Z (TFn0 TInt) (move_guts (TFn0 TInt) answer)) /\
  produced (Once_void move_guts
              (MakeFactoryVoid Z (TFn0 TInt) (move_guts (TFn0 TInt) answer))) 0
  = inr (Dyn (TPromiseLike (TFn0 TInt))
           (PromiseLike.Build (move_guts (TFn0 TInt) answer)), 0) /\
  produced (Repeated_void move_guts
              (MakeFactoryVoid Z (TFn0 TInt) (move_guts (TFn0 TInt) answer))) 0
  = inr (Dyn (TPromiseLike (TFn0 TInt))
           (PromiseLike.Build (move_guts (TFn0 TInt) answer)), 0).
Proof.
  split; [reflexivity |].
  apply (X9_after_Once_the_factory_holds_the_moved_from_callable
           Z move_guts (TFn0 TInt) (MakeFactoryVoid Z (TFn0 TInt) answer)
           eq_refl 0).
Defined.

(** Adapting the promise that an adaptation produced. *)
Lemma X10_witness :
  invoke0 Z (TPromiseLike (TFn0 TInt))
    = Some (existT _ (TPoll TInt)
              (fun p : den Z (TPromiseLike (TFn0 TInt)) =>
                 v <- PromiseLike.f_ p ;; ret (WrapInPoll Z TInt v))) /\
  overload_resolution Z (TPromiseLike (TFn0 TInt)) None = inr Wrap /\
  poll (TPromiseLike (TPromiseLike (TFn0 TInt)))
       (PromiseLike.Build (PromiseLike.Build answer)) 0
  = poll (TPromiseLike (TFn0 TInt)) (PromiseLike.Build answer) 0.
Proof.
  split; [reflexivity |].
  pose proof (X10_adapting_a_promise_yields_that_promise
                Z move_is_copy Xvalue (TPromiseLike (TFn0 TInt)) TInt _ eq_refl)
    as (Hres & Hp).
  split; [exact Hres |].
  exact (proj2 (Hp (PromiseLike.Build answer) 0)).
Defined.

Lemma X11_witness :
  invoke1 Z (TFn1 TInt TInt) TInt
    = Some (existT _ TInt (fun (f : den Z (TFn1 TInt TInt)) a => f a)) /\
  poll_times 2 (TCurried (TFn1 TInt TInt) TInt) (Curried.Build inc 5) 0
  = Some ([Dyn TInt 6; Dyn TInt 6], 2).
Proof.
  split; [reflexivity |].
  apply (X11_Curried_passes_the_same_argument_every_time
           Z (TFn1 TInt TInt) TInt TInt (fun f a => f a) eq_refl
           2%nat inc 5 0).
Defined.

End MoreInstances.
